(** * Zuma chain engine: a shallow embedding of the classes [Path] and
    [BallChain]

    The JavaScript sources keep every quantity in an IEEE double.  The
    embedding reads them as real numbers ([R]): a distance along the track,
    a speed and a time step are reals, array indices and counters are
    natural numbers (or [Z] where the code tests a sign).  An array is a
    list addressed with [!!]; reading a slot that does not exist yields
    [undefined] in JavaScript and the next property access throws, which
    the embedding renders as [None] in the option monad.  A loop whose
    exit is not a plain count carries a fuel argument and also yields
    [None] when the fuel runs out; the totality lemmas show that neither
    happens. *)

From Stdlib Require Import Reals Lra Lia ZArith String.
From stdpp Require Import base option list sorting.

#[local] Open Scope R_scope.

(** ** Numbers *)

#[global] Instance Rle_decision : RelDecision Rle := Rle_dec.
#[global] Instance Rlt_decision : RelDecision Rlt := Rlt_dec.
#[global] Instance Rge_decision : RelDecision Rge := Rge_dec.

(** [Math.atan2 (y, x)] on the reals. *)
Definition atan2 (y x : R) : R :=
  if decide (0 < x) then atan (y / x)
  else if decide (x < 0) then
    (if decide (0 <= y) then atan (y / x) + PI else atan (y / x) - PI)
  else if decide (0 < y) then PI / 2
  else if decide (y < 0) then - (PI / 2)
  else 0.

(** [Math.hypot (dx, dy)]. *)
Definition hypot (dx dy : R) : R := sqrt (dx * dx + dy * dy).

(** ** Records *)

Module Point.
Record t := mk { x : R; y : R }.
End Point.

(** The object returned by [Path.getPointAt]: the last [return] of that
    method hands back a bare sample point, which has no [angle]. *)
Module Located.
Record t := mk { x : R; y : R; angle : option R }.
End Located.

Module Ball.
Record t := mk { id : nat; color : string; distance : R; radius : R }.
Definition setDistance (b : t) (d : R) : t :=
  mk (id b) (color b) d (radius b).
End Ball.

Module Projectile.
Record t := mk { x : R; y : R; vx : R; vy : R; color : string; radius : R }.
End Projectile.

(** The hit record [{index, ball, x, y}] returned by [checkCollision]. *)
Module Hit.
Record t := mk { index : nat; ball : Ball.t; x : R; y : R }.
End Hit.

Record Path := mkPath {
  width : R;
  height : R;
  points : list Point.t;
  segmentLengths : list R;
  totalLength : R
}.

Record BallChain := mkBallChain {
  path : Path;
  balls : list Ball.t;
  ballRadius : R;
  speed : R;
  colors : list string;
  spawnTimer : R;
  spawnInterval : R;
  maxBalls : nat;
  spawnedCount : nat;
  nextId : nat
}.

(** ** Loops *)

(** [for (const i of idxs) s = body (i, s)] where the body may throw. *)
Fixpoint forM {St I : Type} (idxs : list I) (body : I → St → option St)
    (s : St) : option St :=
  match idxs with
  | [] => Some s
  | i :: rest => s' ← body i s; forM rest body s'
  end.

(** [Array.prototype.splice (start, deleteCount, ...items)] for a start
    inside the array: the removed slots close up, the items take their
    place. *)
Definition splice {A : Type} (start deleteCount : nat) (items l : list A)
  : list A :=
  take start l ++ items ++ drop (start + deleteCount) l.

(** [arr[i]] for an index computed by a subtraction, which may be
    negative: JavaScript then yields [undefined]. *)
Definition at_ {A : Type} (l : list A) (i : Z) : option A :=
  if decide (0 <= i)%Z then l !! Z.to_nat i else None.

(** ** class [Path] *)

(** The [i]-th sample of [generateSpiral], [steps = 500], [coils = 3]. *)
Definition spiralPoint (w h : R) (i : nat) : Point.t :=
  let centerX := w / 2 in
  let centerY := h / 2 in
  let maxRadius := Rmin w h * 0.45 in
  let t := INR i / 500 in
  let angle := t * PI * 2 * 3 in
  let radius := maxRadius * (1 - t * 0.8) in
  Point.mk (centerX + cos angle * radius) (centerY + sin angle * radius).

(** The second loop of [generateSpiral]: one length per pair of
    neighbouring samples. *)
Fixpoint lengthsOf (pts : list Point.t) : list R :=
  match pts with
  | p1 :: (p2 :: _) as rest =>
      hypot (Point.x p2 - Point.x p1) (Point.y p2 - Point.y p1) :: lengthsOf rest
  | _ => []
  end.

(** [totalLength += dist] over the same loop, starting from 0. *)
Definition sumLengths (lens : list R) : R := fold_left Rplus lens 0.

(** A path over given sample points, measured as [generateSpiral] does. *)
Definition pathOf (w h : R) (pts : list Point.t) : Path :=
  mkPath w h pts (lengthsOf pts) (sumLengths (lengthsOf pts)).

(** [new Path (width, height, level)]; the level is not used. *)
Definition newPath (w h : R) : Path :=
  pathOf w h (map (spiralPoint w h) (seq 0 501)).

(** Case 3 of [getPointAt]: the walk over [segmentLengths] from index [i]
    with [currentDist] accumulated so far.  When the walk runs off the end
    the method returns the last sample as it is; with no sample at all that
    is [undefined], of which no caller can read a coordinate, and it is
    [None] here too. *)
Fixpoint walkSegments (p : Path) (distance : R) (fuel i : nat) (currentDist : R)
  : option Located.t :=
  if decide (length (segmentLengths p) <= i)%nat then
    pt ← at_ (points p) (Z.of_nat (length (points p)) - 1);
    Some (Located.mk (Point.x pt) (Point.y pt) None)
  else
    match fuel with
    | O => None
    | S fuel' =>
        segLen ← segmentLengths p !! i;
        if decide (currentDist + segLen >= distance) then
          let remaining := distance - currentDist in
          let t := remaining / segLen in
          p1 ← points p !! i;
          p2 ← points p !! (i + 1)%nat;
          let x := Point.x p1 + (Point.x p2 - Point.x p1) * t in
          let y := Point.y p1 + (Point.y p2 - Point.y p1) * t in
          let angle := atan2 (Point.y p2 - Point.y p1) (Point.x p2 - Point.x p1) in
          Some (Located.mk x y (Some angle))
        else walkSegments p distance fuel' (S i) (currentDist + segLen)
    end.

Definition getPointAt (p : Path) (distance : R) : option Located.t :=
  if decide (distance < 0) then
    p1 ← points p !! 0%nat;
    p2 ← points p !! 1%nat;
    let angle := atan2 (Point.y p2 - Point.y p1) (Point.x p2 - Point.x p1) in
    let x := Point.x p1 + cos angle * distance in
    let y := Point.y p1 + sin angle * distance in
    Some (Located.mk x y (Some angle))
  else if decide (distance >= totalLength p) then
    last ← at_ (points p) (Z.of_nat (length (points p)) - 1);
    prev ← at_ (points p) (Z.of_nat (length (points p)) - 2);
    let angle :=
      atan2 (Point.y last - Point.y prev) (Point.x last - Point.x prev) in
    Some (Located.mk (Point.x last) (Point.y last) (Some angle))
  else walkSegments p distance (length (segmentLengths p)) 0 0.

(** ** class [BallChain] *)

(** [Math.random] is an oracle: [draw k] is the value of
    [Math.floor (Math.random () * this.colors.length)] at the [k]-th call
    made by the method at hand.  [Math.random] lies in [0, 1), so the index
    is inside [colors]. *)
Definition pickColor (c : BallChain) (r : nat) : string :=
  default EmptyString (colors c !! r).

Definition withBalls (c : BallChain) (bs : list Ball.t) : BallChain :=
  mkBallChain (path c) bs (ballRadius c) (speed c) (colors c) (spawnTimer c)
    (spawnInterval c) (maxBalls c) (spawnedCount c) (nextId c).

Definition withSpawnTimer (c : BallChain) (t : R) : BallChain :=
  mkBallChain (path c) (balls c) (ballRadius c) (speed c) (colors c) t
    (spawnInterval c) (maxBalls c) (spawnedCount c) (nextId c).

(** [this.balls.push ({id: this.nextId++, color, distance, radius:
    this.ballRadius}); this.spawnedCount++]. *)
Definition pushSpawned (c : BallChain) (color : string) (distance : R)
  : BallChain :=
  mkBallChain (path c)
    (balls c ++ [Ball.mk (nextId c) color distance (ballRadius c)])
    (ballRadius c) (speed c) (colors c) (spawnTimer c) (spawnInterval c)
    (maxBalls c) (S (spawnedCount c)) (S (nextId c)).

Fixpoint preSpawnBalls (draw : nat → nat) (count i : nat) (c : BallChain)
  : BallChain :=
  match count with
  | O => c
  | S count' =>
      let color := pickColor c (draw i) in
      preSpawnBalls draw count' (S i) (pushSpawned c color 0)
  end.

Definition palette : list string :=
  ["#ff0055"; "#00f2ff"; "#00ff00"; "#ffff00"]%string.

(** [new BallChain (path, level)]. *)
Definition newBallChain (draw : nat → nat) (p : Path) (level : nat)
  : BallChain :=
  let ballRadius := 18 in
  let speed := 50 + INR level * 5 in
  preSpawnBalls draw 1 0
    (mkBallChain p [] ballRadius speed palette 0 (ballRadius * 2 / speed)
       (20 + level * 10) 0 0).

(** *** spawnBall *)

(** One turn of the loop that looks for the two balls nearest to
    distance 0. *)
Definition closestStep (st : option Ball.t * option Ball.t) (ball : Ball.t)
  : option Ball.t * option Ball.t :=
  let '(closest, secondClosest) := st in
  match closest with
  | None => (Some ball, closest)
  | Some cl =>
      if decide (Rabs (Ball.distance ball) < Rabs (Ball.distance cl)) then
        (Some ball, closest)
      else
        match secondClosest with
        | None => (closest, Some ball)
        | Some sc =>
            if decide (Rabs (Ball.distance ball) < Rabs (Ball.distance sc))
            then (closest, Some ball)
            else (closest, secondClosest)
        end
  end.

(** The [do ... while (attempts < 10 && color === closest.color)] loop:
    [more] is how many further draws are allowed after the one made here,
    9 on entry, so that at most 10 draws are made. *)
Fixpoint resample (c : BallChain) (draw : nat → nat) (avoid : string)
    (more attempts : nat) : string :=
  let color := pickColor c (draw attempts) in
  match more with
  | O => color
  | S more' =>
      if String.eqb color avoid
      then resample c draw avoid more' (S attempts)
      else color
  end.

Definition spawnBall (draw : nat → nat) (c : BallChain) : BallChain :=
  let '(closest, secondClosest) := fold_left closestStep (balls c) (None, None) in
  let color :=
    match closest, secondClosest with
    | Some cl, Some sc =>
        if String.eqb (Ball.color cl) (Ball.color sc)
        then resample c draw (Ball.color cl) 9 0
        else pickColor c (draw 0%nat)
    | _, _ => pickColor c (draw 0%nat)
    end in
  let spawnDistance :=
    match closest with
    | Some cl => Ball.distance cl - ballRadius c * 2
    | None => 0
    end in
  pushSpawned c color spawnDistance.

(** *** update, step 1: spawning *)

Definition spawnStep (dt : R) (draw : nat → nat) (c : BallChain) : BallChain :=
  if decide (spawnedCount c < maxBalls c)%nat then
    let c1 := withSpawnTimer c (spawnTimer c + dt) in
    if decide (spawnTimer c1 >= spawnInterval c1)
    then withSpawnTimer (spawnBall draw c1) 0
    else c1
  else c.

(** *** update: sorting

    [this.balls.sort ((a, b) => a.distance - b.distance)]: the sort of an
    array is stable, and a stable sort has one result; it is computed here
    by insertion. *)
Fixpoint insertByDistance (b : Ball.t) (l : list Ball.t) : list Ball.t :=
  match l with
  | [] => [b]
  | b' :: l' =>
      if decide (Ball.distance b <= Ball.distance b')
      then b :: b' :: l'
      else b' :: insertByDistance b l'
  end.

Definition sortByDistance (l : list Ball.t) : list Ball.t :=
  foldr insertByDistance [] l.

(** *** update, step 2: segments

    A segment holds references to ball objects of [this.balls]; between
    the sort and the match scan the array keeps its length, so an object is
    named by its index and a segment is a list of indices.  The array [bs]
    is the shared store: what step 3 writes through a segment is what a
    later read of [this.balls] sees. *)
Definition segmentStep (bs : list Ball.t) (diameter epsilon : R) (i : nat)
    (st : list (list nat) * list nat) : option (list (list nat) * list nat) :=
  let '(segments, currentSegment) := st in
  ball ← bs !! i;
  prevBall ← bs !! (i - 1)%nat;
  if decide (Ball.distance ball - Ball.distance prevBall <= diameter + epsilon)
  then Some (segments, currentSegment ++ [i])
  else Some (segments ++ [currentSegment], [i]).

Definition buildSegments (bs : list Ball.t) (diameter epsilon : R)
  : option (list (list nat)) :=
  '(segments, currentSegment) ←
    forM (seq 1 (length bs - 1)) (segmentStep bs diameter epsilon) ([], [0%nat]);
  Some (segments ++ [currentSegment]).

(** *** update, step 3: motion *)

(** [ball.distance += moveSpeed * dt] through the reference [r]. *)
Definition advance (moveSpeed dt : R) (r : nat) (bs : list Ball.t)
  : option (list Ball.t) :=
  ball ← bs !! r;
  Some (<[r := Ball.setDistance ball (Ball.distance ball + moveSpeed * dt)]> bs).

(** The speed of segment [i], read from the store as it is when the loop
    reaches [i]. *)
Definition moveSpeedOf (speed attractionSpeed diameter : R)
    (segments : list (list nat)) (i : nat) (segment : list nat)
    (bs : list Ball.t) : option R :=
  if decide (i = 0%nat) then Some speed
  else
    prevSegment ← segments !! (i - 1)%nat;
    prevTailRef ← at_ prevSegment (Z.of_nat (length prevSegment) - 1);
    prevTail ← bs !! prevTailRef;
    headRef ← segment !! 0%nat;
    head ← bs !! headRef;
    let gap := Ball.distance head - Ball.distance prevTail - diameter in
    let pullStrength := Rmin (gap / 50) 1.5 in
    Some (- attractionSpeed * (0.5 + pullStrength)).

Definition moveStep (speed attractionSpeed diameter dt : R)
    (segments : list (list nat)) (i : nat) (bs : list Ball.t)
  : option (list Ball.t) :=
  segment ← segments !! i;
  moveSpeed ← moveSpeedOf speed attractionSpeed diameter segments i segment bs;
  forM segment (advance moveSpeed dt) bs.

Definition moveSegments (speed attractionSpeed diameter dt : R)
    (segments : list (list nat)) (bs : list Ball.t) : option (list Ball.t) :=
  forM (seq 0 (length segments))
    (moveStep speed attractionSpeed diameter dt segments) bs.

(** *** update, step 4: overlap resolution *)

Definition resolveStep (diameter : R) (i : nat) (bs : list Ball.t)
  : option (list Ball.t) :=
  ball ← bs !! i;
  prevBall ← bs !! (i - 1)%nat;
  if decide (Ball.distance ball < Ball.distance prevBall + diameter)
  then Some (<[i := Ball.setDistance ball (Ball.distance prevBall + diameter)]> bs)
  else Some bs.

Definition resolveOverlaps (diameter : R) (bs : list Ball.t)
  : option (list Ball.t) :=
  forM (seq 1 (length bs - 1)) (resolveStep diameter) bs.

(** *** update, step 5: match scan *)

(** The inner [while]: it counts the balls from [j] on that have the colour
    of the run and sit within [diameter + epsilon] of their predecessor. *)
Fixpoint runLoop (diameter epsilon : R) (bs : list Ball.t) (color : string)
    (fuel count j : nat) : option (nat * nat) :=
  if decide (length bs <= j)%nat then Some (count, j)
  else
    match fuel with
    | O => None
    | S fuel' =>
        bj ← bs !! j;
        if String.eqb (Ball.color bj) color then
          bj1 ← bs !! (j - 1)%nat;
          if decide (Ball.distance bj - Ball.distance bj1 <= diameter + epsilon)
          then runLoop diameter epsilon bs color fuel' (S count) (S j)
          else Some (count, j)
        else Some (count, j)
    end.

(** The outer [while (i < this.balls.length)]; [calls] collects the
    arguments of the [onMatch] invocations in order. *)
Fixpoint matchLoop (diameter epsilon : R) (fuel : nat) (bs : list Ball.t)
    (i : nat) (calls : list nat) : option (list Ball.t * list nat) :=
  if decide (length bs <= i)%nat then Some (bs, calls)
  else
    match fuel with
    | O => None
    | S fuel' =>
        bi ← bs !! i;
        '(count, j) ← runLoop diameter epsilon bs (Ball.color bi) (length bs) 1 (i + 1);
        if decide (3 <= count)%nat
        then matchLoop diameter epsilon fuel' (splice i count [] bs) i (calls ++ [count])
        else matchLoop diameter epsilon fuel' bs j calls
    end.

Definition matchScan (diameter epsilon : R) (bs : list Ball.t)
  : option (list Ball.t * list nat) :=
  matchLoop diameter epsilon (length bs) bs 0 [].

(** *** update

    The result pairs the chain after the tick with the [onMatch] calls
    made during it ([onMatch] may be absent; the calls are recorded all the
    same). *)
Definition update (dt : R) (draw : nat → nat) (c : BallChain)
  : option (BallChain * list nat) :=
  let c := spawnStep dt draw c in
  if decide (length (balls c) = 0)%nat then Some (c, [])
  else
    let diameter := ballRadius c * 2 in
    let epsilon := 2 in
    let attractionSpeed := speed c * 4 in
    let sorted := sortByDistance (balls c) in
    segments ← buildSegments sorted diameter epsilon;
    moved ← moveSegments (speed c) attractionSpeed diameter dt segments sorted;
    resolved ← resolveOverlaps diameter moved;
    '(remaining, calls) ← matchScan diameter epsilon resolved;
    Some (withBalls c remaining, calls).

(** *** Queries

    In [hasReachedEnd] the last slot exists once the array is known not to
    be empty, so the [None] branch is never taken. *)

Definition hasReachedEnd (c : BallChain) : bool :=
  if decide (length (balls c) = 0)%nat then false
  else
    match at_ (balls c) (Z.of_nat (length (balls c)) - 1) with
    | Some head => bool_decide (Ball.distance head >= totalLength (path c))
    | None => false
    end.

Definition isEmpty (c : BallChain) : bool :=
  bool_decide (length (balls c) = 0%nat).

Definition hasFinishedSpawning (c : BallChain) : bool :=
  bool_decide (maxBalls c <= spawnedCount c)%nat.

(** *** checkCollision

    The outer option is the exception layer ([getPointAt] fails on a
    degenerate path); the inner one is the [null] of the method. *)
Fixpoint collisionLoop (c : BallChain) (projectile : Projectile.t)
    (fuel i : nat) : option (option Hit.t) :=
  if decide (length (balls c) <= i)%nat then Some None
  else
    match fuel with
    | O => None
    | S fuel' =>
        ball ← balls c !! i;
        pos ← getPointAt (path c) (Ball.distance ball);
        let dx := Located.x pos - Projectile.x projectile in
        let dy := Located.y pos - Projectile.y projectile in
        let dist := sqrt (dx * dx + dy * dy) in
        if decide (dist < Ball.radius ball + Projectile.radius projectile)
        then Some (Some (Hit.mk i ball (Located.x pos) (Located.y pos)))
        else collisionLoop c projectile fuel' (S i)
    end.

Definition checkCollision (projectile : Projectile.t) (c : BallChain)
  : option (option Hit.t) :=
  collisionLoop c projectile (length (balls c)) 0.

(** *** insertBall *)

(** One turn of the loop that pushes the balls after the insertion point
    forward; [currentIdx] only ever steps by one up to [length - 2]. *)
Definition pushStep (ballRadius : R) (currentIdx : nat) (bs : list Ball.t)
  : option (list Ball.t) :=
  b1 ← bs !! currentIdx;
  b2 ← bs !! (currentIdx + 1)%nat;
  if decide (Ball.distance b2 - Ball.distance b1 < ballRadius * 2)
  then Some (<[(currentIdx + 1)%nat :=
                 Ball.setDistance b2 (Ball.distance b1 + ballRadius * 2)]> bs)
  else Some bs.

Definition insertBall (projectile : Projectile.t) (hitIndex : nat)
    (c : BallChain) : option (BallChain * nat) :=
  hitBall ← balls c !! hitIndex;
  let newBall :=
    Ball.mk (nextId c) (Projectile.color projectile) (Ball.distance hitBall)
      (ballRadius c) in
  let bs := splice hitIndex 0 [newBall] (balls c) in
  bs' ← forM (seq hitIndex (length bs - 1 - hitIndex)) (pushStep (ballRadius c)) bs;
  Some (mkBallChain (path c) bs' (ballRadius c) (speed c) (colors c)
          (spawnTimer c) (spawnInterval c) (maxBalls c) (spawnedCount c)
          (S (nextId c)),
        hitIndex).

(** *** checkMatches *)

(** The backward search [for (i = startIndex - 1; i >= 0; i--)]: the
    argument [k] is [i + 1], so that [k = 0] is the exit of the loop. *)
Fixpoint backward (bs : list Ball.t) (color : string) (k matchCount start : nat)
  : option (nat * nat) :=
  match k with
  | O => Some (matchCount, start)
  | S i =>
      b ← bs !! i;
      if String.eqb (Ball.color b) color
      then backward bs color i (S matchCount) i
      else Some (matchCount, start)
  end.

(** The forward search [for (i = startIndex + 1; i < length; i++)]; the
    variable [end] it also sets is never read. *)
Fixpoint forward (bs : list Ball.t) (color : string) (fuel i matchCount : nat)
  : option nat :=
  if decide (length bs <= i)%nat then Some matchCount
  else
    match fuel with
    | O => None
    | S fuel' =>
        b ← bs !! i;
        if String.eqb (Ball.color b) color
        then forward bs color fuel' (S i) (S matchCount)
        else Some matchCount
    end.

Definition checkMatches (startIndex : Z) (c : BallChain)
  : option (BallChain * nat) :=
  if decide (startIndex < 0 ∨ startIndex >= Z.of_nat (length (balls c)))%Z
  then Some (c, 0%nat)
  else
    let s := Z.to_nat startIndex in
    pivot ← balls c !! s;
    let color := Ball.color pivot in
    '(matchCount, start) ← backward (balls c) color s 1 s;
    matchCount ← forward (balls c) color (length (balls c)) (s + 1) matchCount;
    if decide (3 <= matchCount)%nat
    then Some (withBalls c (splice start matchCount [] (balls c)), matchCount)
    else Some (c, 0%nat).

(** ** Notions used by the statements *)

(** A path as the constructor leaves it: at least two samples, and one
    measured length per pair of neighbours. *)
Definition wfPath (p : Path) : Prop :=
  (2 <= length (points p))%nat ∧
  (length (segmentLengths p) + 1 = length (points p))%nat.

(** The circle of [ball], drawn at [pos], and the circle of the projectile
    overlap: their centres are closer than the sum of the radii. *)
Definition circlesOverlap (pos : Located.t) (ball : Ball.t)
    (projectile : Projectile.t) : Prop :=
  hypot (Located.x pos - Projectile.x projectile)
        (Located.y pos - Projectile.y projectile)
  < Ball.radius ball + Projectile.radius projectile.

(** Two neighbours belong to one run: the later one has the colour of
    the earlier one and lies within [diameter + epsilon] of it. *)
Definition linked (diameter epsilon : R) (a b : Ball.t) : bool :=
  String.eqb (Ball.color b) (Ball.color a)
  && bool_decide (Ball.distance b - Ball.distance a <= diameter + epsilon).

(** The maximal runs of same-colour balls in contact, in order: a ball
    joins the run that starts right after it when it is linked to the
    first ball of that run, and starts a run of its own otherwise. *)
Fixpoint runs (diameter epsilon : R) (bs : list Ball.t) : list (list Ball.t) :=
  match bs with
  | [] => []
  | b :: rest =>
      match runs diameter epsilon rest with
      | (b' :: g) :: gs =>
          if linked diameter epsilon b b'
          then (b :: b' :: g) :: gs
          else [b] :: (b' :: g) :: gs
      | _ => [[b]]
      end
  end.

(** How many balls at the front of [rest] continue a run of colour
    [color] whose last ball so far is [prev]. *)
Fixpoint linkedPrefix (diameter epsilon : R) (color : string) (prev : Ball.t)
    (rest : list Ball.t) : nat :=
  match rest with
  | [] => O
  | b :: rest' =>
      if String.eqb (Ball.color b) color then
        if decide (Ball.distance b - Ball.distance prev <= diameter + epsilon)
        then S (linkedPrefix diameter epsilon color b rest')
        else O
      else O
  end.

(** The runs the scan leaves in place, and the sizes it reports. *)
Definition keptRuns (gs : list (list Ball.t)) : list Ball.t :=
  concat (filter (λ g, length g < 3)%nat gs).

Definition reportedRuns (gs : list (list Ball.t)) : list nat :=
  length <$> filter (λ g, 3 <= length g)%nat gs.

(** What [buildSegments] returns: the indices 0 .. length - 1 in order, cut
    into non-empty pieces. *)
Definition segmentation (n : nat) (segments : list (list nat)) : Prop :=
  concat segments = seq 0 n ∧ Forall (λ g, g ≠ []) segments.

(** Neighbours in array order are at least [diameter] apart. *)
Definition spaced (diameter : R) (bs : list Ball.t) : Prop :=
  ∀ i a b, bs !! i = Some a → bs !! S i = Some b →
    Ball.distance a + diameter <= Ball.distance b.

(** [b] does not have the colour [color]; an absent neighbour ([None], at
    either end of the array) does not have it either. *)
Definition otherColor (color : string) (ob : option Ball.t) : Prop :=
  match ob with
  | Some b => Ball.color b ≠ color
  | None => True
  end.

(** [run], which lies between [before] and [after] in the array, is the
    whole stretch of neighbours of colour [color]. *)
Definition colorRun (color : string) (before run after : list Ball.t) : Prop :=
  Forall (λ b, Ball.color b = color) run ∧
  otherColor color (last before) ∧ otherColor color (head after).

(** Every two neighbours inside [run] are linked. *)
Definition inContact (diameter epsilon : R) (run : list Ball.t) : Prop :=
  ∀ i a b, run !! i = Some a → run !! S i = Some b →
    linked diameter epsilon a b = true.

(** The balls on either side of a cut are not linked; at an end of the
    array there is nothing to be linked to. *)
Definition notLinked (diameter epsilon : R) (oa ob : option Ball.t) : Prop :=
  match oa, ob with
  | Some a, Some b => linked diameter epsilon a b = false
  | _, _ => True
  end.

(** [run], between [before] and [after], is a maximal run of same-colour
    balls in contact. *)
Definition maximalRun (diameter epsilon : R) (before run after : list Ball.t)
  : Prop :=
  run ≠ [] ∧ inContact diameter epsilon run ∧
  notLinked diameter epsilon (last before) (head run) ∧
  notLinked diameter epsilon (last run) (head after).

(** The velocity of a pulled segment for a given gap. *)
Definition pullSpeed (attractionSpeed gap : R) : R :=
  - attractionSpeed * (0.5 + Rmin (gap / 50) 1.5).

(** The store after every ball referenced by [segment] has been advanced
    by [v * dt]. *)
Definition movedBy (v dt : R) (segment : list nat) (bs : list Ball.t)
  : list Ball.t :=
  imap (λ r b, if decide (r ∈ segment)
               then Ball.setDistance b (Ball.distance b + v * dt) else b) bs.

(** ** Sample data for the instances *)

Definition red : string := "#ff0055".
Definition cyan : string := "#00f2ff".

(** The oracle that always draws the first colour. *)
Definition firstColor : nat → nat := λ _, 0%nat.

(** A straight track of length 1000. *)
Definition straightTrack : Path :=
  pathOf 800 600 [Point.mk 0 0; Point.mk 1000 0].

(** A level-1 chain over [straightTrack] that holds the balls [bs] and has
    spawned [spawned] of its 30 balls. *)
Definition chainOf (bs : list Ball.t) (spawned : nat) : BallChain :=
  mkBallChain straightTrack bs 18 55 palette 0 (18 * 2 / 55) 30 spawned 30.

(** ** Tactics *)

(** Decide the comparisons of reals in a goal over concrete numbers, one
    after the other, simplifying in between. *)
Ltac decide_reals :=
  repeat (match goal with
          | |- context [decide ?P] =>
              first [ rewrite (decide_True (P := P)) by (simpl; lra)
                    | rewrite (decide_False (P := P)) by (simpl; lra) ]
          | |- context [Rmin ?a ?b] =>
              first [ rewrite (Rmin_left a b) by (simpl; lra)
                    | rewrite (Rmin_right a b) by (simpl; lra) ]
          end; simpl).

(** * Properties *)

(** ** Loops and arrays *)

Lemma forM_inv {St I : Type} (P : St → Prop) (Q : I → Prop) (xs : list I)
    (body : I → St → option St) (s : St) :
  P s → Forall Q xs →
  (∀ i s, Q i → P s → ∃ s', body i s = Some s' ∧ P s') →
  ∃ s', forM xs body s = Some s' ∧ P s'.
Proof.
  intros Hs Hxs Hstep. revert s Hs.
  induction Hxs as [|x xs Hx _ IH]; intros s Hs; simpl; [by exists s|].
  destruct (Hstep x s Hx Hs) as (s1 & -> & H1). simpl. by apply IH.
Qed.

(** A counting loop keeps an invariant indexed by the counter. *)
Lemma forM_seq_inv {St : Type} (P : nat → St → Prop) (a n : nat)
    (body : nat → St → option St) (s : St) :
  P a s →
  (∀ i s, (a ≤ i < a + n)%nat → P i s →
     ∃ s', body i s = Some s' ∧ P (S i) s') →
  ∃ s', forM (seq a n) body s = Some s' ∧ P (a + n)%nat s'.
Proof.
  revert a s. induction n as [|n IH]; intros a s Ha Hstep; simpl.
  - exists s. by rewrite Nat.add_0_r.
  - destruct (Hstep a s) as (s1 & -> & H1); [lia|done|]. simpl.
    destruct (IH (S a) s1) as (s2 & -> & H2); [done| |].
    + intros i s0 Hi. apply Hstep. lia.
    + exists s2. split; [done|].
      by replace (a + S n)%nat with (S a + n)%nat by lia.
Qed.

Lemma at_last {A : Type} (l : list A) (x : A) :
  at_ (l ++ [x]) (Z.of_nat (length (l ++ [x])) - 1) = Some x.
Proof.
  unfold at_. rewrite length_app. simpl. case_decide; [|lia].
  replace (Z.to_nat _) with (length l + 0)%nat by lia.
  by rewrite lookup_app_r, Nat.add_0_r, Nat.sub_diag by lia.
Qed.

Lemma at_penultimate {A : Type} (l : list A) (x y : A) :
  at_ (l ++ [x; y]) (Z.of_nat (length (l ++ [x; y])) - 2) = Some x.
Proof.
  unfold at_. rewrite length_app. simpl. case_decide; [|lia].
  replace (Z.to_nat _) with (length l + 0)%nat by lia.
  by rewrite lookup_app_r, Nat.add_0_r, Nat.sub_diag by lia.
Qed.

Lemma at_final {A : Type} (l : list A) (x y : A) :
  at_ (l ++ [x; y]) (Z.of_nat (length (l ++ [x; y])) - 1) = Some y.
Proof.
  replace (l ++ [x; y]) with ((l ++ [x]) ++ [y]) by (by rewrite <- app_assoc).
  apply at_last.
Qed.

Lemma at_in_range {A : Type} (l : list A) (k : Z) :
  (0 <= k < Z.of_nat (length l))%Z → is_Some (at_ l k).
Proof.
  intros Hk. unfold at_. rewrite decide_True by lia.
  apply lookup_lt_is_Some. lia.
Qed.

Lemma splice_middle {A : Type} (before run after : list A) :
  splice (length before) (length run) [] (before ++ run ++ after) = before ++ after.
Proof.
  unfold splice. rewrite take_app_length. simpl.
  rewrite drop_app_add'; [|done]. by rewrite drop_app_length.
Qed.

Lemma splice_insert_lookup {A : Type} (h : nat) (x : A) (l : list A) (j : nat) :
  (h <= length l)%nat →
  splice h 0 [x] l !! j =
    if decide (j < h)%nat then l !! j
    else if decide (j = h) then Some x else l !! (j - 1)%nat.
Proof.
  intros Hh. unfold splice. rewrite Nat.add_0_r.
  destruct (decide (j < h)%nat) as [Hj|Hj].
  - rewrite lookup_app_l by (rewrite length_take; lia). by rewrite lookup_take_lt.
  - rewrite lookup_app_r by (rewrite length_take; lia).
    rewrite length_take, Nat.min_l by lia.
    destruct (decide (j = h)) as [->|Hne]; [by rewrite Nat.sub_diag|].
    destruct (j - h)%nat as [|m] eqn:Hm; [lia|]. simpl.
    rewrite lookup_drop. f_equal. lia.
Qed.

Lemma setDistance_same (b : Ball.t) : Ball.setDistance b (Ball.distance b) = b.
Proof. by destruct b. Qed.

Lemma concat_NoDup_member {A : Type} (ls : list (list A)) (i : nat) (l : list A) :
  NoDup (concat ls) → ls !! i = Some l → NoDup l.
Proof.
  revert i. induction ls as [|l0 ls IH]; intros i Hnd Hi; [done|].
  simpl in Hnd. apply NoDup_app in Hnd as (Hl0 & _ & Hls).
  destruct i as [|i]; simpl in Hi; [by injection Hi as <-|]. by apply (IH i).
Qed.

Lemma concat_NoDup_disjoint {A : Type} (ls : list (list A)) (i j : nat)
    (l1 l2 : list A) (x : A) :
  NoDup (concat ls) → ls !! i = Some l1 → ls !! j = Some l2 →
  x ∈ l1 → x ∈ l2 → i = j.
Proof.
  revert i j. induction ls as [|l0 ls IH]; intros i j Hnd Hi Hj H1 H2; [done|].
  simpl in Hnd. apply NoDup_app in Hnd as (_ & Hsep & Hls).
  assert (Hin : ∀ k l, ls !! k = Some l → x ∈ l → x ∈ concat ls).
  { intros k l Hk Hx. apply list_elem_of_In, in_concat. exists l.
    split; apply list_elem_of_In; [by apply list_elem_of_lookup_2 with k|done]. }
  destruct i as [|i], j as [|j]; simpl in Hi, Hj.
  - done.
  - injection Hi as <-. destruct (Hsep x H1). by apply (Hin j l2).
  - injection Hj as <-. destruct (Hsep x H2). by apply (Hin i l1).
  - f_equal. by apply IH.
Qed.

Lemma StronglySorted_sublist {A : Type} (R : relation A) (l k : list A) :
  l `sublist_of` k → StronglySorted R k → StronglySorted R l.
Proof.
  induction 1 as [|x l k Hsub IH|x l k Hsub IH]; intros Hk.
  - constructor.
  - apply StronglySorted_inv in Hk as [Hk Hx]. constructor; [by apply IH|].
    rewrite Forall_forall in Hx |- *. intros y Hy. apply Hx.
    by apply (elem_of_sublist l k y).
  - apply StronglySorted_inv in Hk as [Hk _]. by apply IH.
Qed.

(** ** The two end signals *)

(** C9: the failure signal [hasReachedEnd] and the victory signal
    [isEmpty && hasFinishedSpawning] are never raised together, in any
    chain state: the first needs a ball, the second needs none. *)
Theorem end_signals_exclusive (c : BallChain) :
  hasReachedEnd c && (isEmpty c && hasFinishedSpawning c) = false.
Proof.
  unfold hasReachedEnd, isEmpty.
  destruct (decide (length (balls c) = 0%nat)) as [He|He]; [done|].
  rewrite (bool_decide_eq_false_2 _ He). simpl. apply andb_false_r.
Qed.

(** ** Path *)

Lemma hypot_nonneg (dx dy : R) : 0 <= hypot dx dy.
Proof. apply sqrt_pos. Qed.

Lemma lengthsOf_nonneg (pts : list Point.t) : Forall (Rle 0) (lengthsOf pts).
Proof.
  induction pts as [|p1 [|p2 rest] IH]; simpl; try constructor.
  - apply hypot_nonneg.
  - exact IH.
Qed.

Lemma length_lengthsOf (pts : list Point.t) :
  length (lengthsOf pts) = (length pts - 1)%nat.
Proof.
  induction pts as [|p1 [|p2 rest] IH]; simpl in *; try done.
  rewrite IH. lia.
Qed.

Lemma fold_left_Rplus_ge (lens : list R) (a : R) :
  Forall (Rle 0) lens → a <= fold_left Rplus lens a.
Proof.
  intros H. revert a. induction H as [|x lens Hx _ IH]; intros a; simpl; [lra|].
  specialize (IH (a + x)). lra.
Qed.

Lemma totalLength_nonneg (w h : R) (pts : list Point.t) :
  0 <= totalLength (pathOf w h pts).
Proof. apply fold_left_Rplus_ge, lengthsOf_nonneg. Qed.

Lemma atan2_right (x : R) : 0 < x → atan2 0 x = 0.
Proof.
  intros Hx. unfold atan2. rewrite decide_True by done.
  replace (0 / x) with 0 by (unfold Rdiv; ring). apply atan_0.
Qed.

(** Before the start of the track. *)
Lemma getPointAt_before (p : Path) (p1 p2 : Point.t) (rest : list Point.t) (d : R) :
  points p = p1 :: p2 :: rest → d < 0 →
  let angle := atan2 (Point.y p2 - Point.y p1) (Point.x p2 - Point.x p1) in
  getPointAt p d =
    Some (Located.mk (Point.x p1 + cos angle * d) (Point.y p1 + sin angle * d)
            (Some angle)).
Proof.
  intros Hp Hd. unfold getPointAt. rewrite decide_True by done. by rewrite Hp.
Qed.

(** At or past the end of the track. *)
Lemma getPointAt_beyond (p : Path) (front : list Point.t) (prev last : Point.t) (d : R) :
  points p = front ++ [prev; last] → 0 <= totalLength p → d >= totalLength p →
  getPointAt p d =
    Some (Located.mk (Point.x last) (Point.y last)
            (Some (atan2 (Point.y last - Point.y prev) (Point.x last - Point.x prev)))).
Proof.
  intros Hp H0 Hd. unfold getPointAt.
  rewrite decide_False by lra. rewrite decide_True by done.
  by rewrite Hp, at_final, at_penultimate.
Qed.

(** C5: [getPointAt] is a function of the path and the distance alone.
    For a negative distance it extends the track backwards from the first
    sample along the direction of the first segment, so that on a path that
    starts with (0,0) and (10,0) the distance -10 lies at x = -10, y = 0.
    For a distance at or beyond [totalLength] it returns the last sample
    itself, with the direction of the last segment; in particular at
    [totalLength + 100]. *)
Theorem getPointAt_boundaries (w h : R) :
  (∀ (p1 p2 : Point.t) (rest : list Point.t) (d : R),
     d < 0 →
     let angle := atan2 (Point.y p2 - Point.y p1) (Point.x p2 - Point.x p1) in
     getPointAt (pathOf w h (p1 :: p2 :: rest)) d =
       Some (Located.mk (Point.x p1 + cos angle * d)
               (Point.y p1 + sin angle * d) (Some angle))) ∧
  (∀ rest : list Point.t,
     ∃ loc, getPointAt (pathOf w h (Point.mk 0 0 :: Point.mk 10 0 :: rest)) (-10)
            = Some loc ∧ Located.x loc = -10 ∧ Located.y loc = 0) ∧
  (∀ (front : list Point.t) (prev last : Point.t) (d : R),
     let p := pathOf w h (front ++ [prev; last]) in
     d >= totalLength p →
     getPointAt p d =
       Some (Located.mk (Point.x last) (Point.y last)
               (Some (atan2 (Point.y last - Point.y prev)
                        (Point.x last - Point.x prev))))) ∧
  (∀ (front : list Point.t) (prev last : Point.t),
     let p := pathOf w h (front ++ [prev; last]) in
     ∃ loc, getPointAt p (totalLength p + 100) = Some loc ∧
            Located.x loc = Point.x last ∧ Located.y loc = Point.y last).
Proof.
  split; [|split; [|split]].
  - intros p1 p2 rest d Hd. by apply (getPointAt_before _ p1 p2 rest).
  - intros rest. eexists. split.
    + apply (getPointAt_before _ (Point.mk 0 0) (Point.mk 10 0) rest); [done|lra].
    + simpl. replace (0 - 0) with 0 by ring. rewrite atan2_right by lra.
      rewrite cos_0, sin_0. split; ring.
  - intros front prev last d p Hd.
    apply (getPointAt_beyond _ front); [done|apply totalLength_nonneg|done].
  - intros front prev last p. eexists. split.
    + apply (getPointAt_beyond _ front prev last); [done|apply totalLength_nonneg|].
      pose proof (totalLength_nonneg w h (front ++ [prev; last])). fold p in H. lra.
    + done.
Qed.

Lemma getPointAt_boundaries_witness :
  let p := pathOf 800 600 [Point.mk 0 0; Point.mk 10 0; Point.mk 10 10] in
  (-10 < 0 ∧
   getPointAt p (-10) =
     Some (Located.mk (0 + cos (atan2 (0 - 0) (10 - 0)) * -10)
             (0 + sin (atan2 (0 - 0) (10 - 0)) * -10)
             (Some (atan2 (0 - 0) (10 - 0))))) ∧
  (totalLength p + 100 >= totalLength p ∧
   getPointAt p (totalLength p + 100) =
     Some (Located.mk 10 10 (Some (atan2 (10 - 0) (10 - 10))))).
Proof.
  intros p.
  pose proof (getPointAt_boundaries 800 600) as (Hbefore & _ & Hbeyond & _).
  split; split.
  - lra.
  - apply (Hbefore (Point.mk 0 0) (Point.mk 10 0) [Point.mk 10 10] (-10)). lra.
  - lra.
  - apply (Hbeyond [Point.mk 0 0] (Point.mk 10 0) (Point.mk 10 10)).
    change (totalLength p + 100 >= totalLength p). lra.
Defined.

Lemma wfPath_pathOf (w h : R) (pts : list Point.t) :
  (2 <= length pts)%nat → wfPath (pathOf w h pts).
Proof.
  intros Hlen. split; simpl; [done|]. rewrite length_lengthsOf. lia.
Qed.

Lemma wfPath_newPath (w h : R) : wfPath (newPath w h).
Proof. apply wfPath_pathOf. rewrite length_map, length_seq. lia. Qed.

Lemma walkSegments_total (p : Path) (d : R) (fuel i : nat) (acc : R) :
  wfPath p → (length (segmentLengths p) - i <= fuel)%nat →
  is_Some (walkSegments p d fuel i acc).
Proof.
  intros [H2 Hlen]. revert i acc.
  induction fuel as [|fuel IH]; intros i acc Hfuel; simpl.
  - rewrite decide_True by lia.
    destruct (at_in_range (points p) (Z.of_nat (length (points p)) - 1)) as [pt ->]; [lia|done].
  - destruct (decide (length (segmentLengths p) ≤ i)) as [Hi|Hi].
    + destruct (at_in_range (points p) (Z.of_nat (length (points p)) - 1)) as [pt ->]; [lia|done].
    + destruct (lookup_lt_is_Some_2 (segmentLengths p) i) as [segLen ->]; [lia|]. simpl.
      destruct (decide (acc + segLen >= d)); [|apply IH; lia].
      destruct (lookup_lt_is_Some_2 (points p) i) as [p1 ->]; [lia|].
      destruct (lookup_lt_is_Some_2 (points p) (i + 1)) as [p2 ->]; [lia|]. done.
Qed.

(** On a well-formed path every distance has a position. *)
Lemma getPointAt_total (p : Path) (d : R) :
  wfPath p → is_Some (getPointAt p d).
Proof.
  intros Hwf. pose proof Hwf as [H2 Hlen]. unfold getPointAt.
  destruct (decide (d < 0)).
  - destruct (lookup_lt_is_Some_2 (points p) 0) as [p1 ->]; [lia|].
    destruct (lookup_lt_is_Some_2 (points p) 1) as [p2 ->]; [lia|]. done.
  - destruct (decide (d >= totalLength p)).
    + destruct (at_in_range (points p) (Z.of_nat (length (points p)) - 1)) as [pt ->]; [lia|].
      destruct (at_in_range (points p) (Z.of_nat (length (points p)) - 2)) as [pr ->]; [lia|]. done.
    + apply walkSegments_total; [done|lia].
Qed.

Lemma sqrt_below (x b : R) : 0 <= x → 0 <= b → x < b * b → sqrt x < b.
Proof.
  intros Hx Hb Hlt. rewrite <- (sqrt_square b) by done.
  apply sqrt_lt_1; [done| |done]. by apply Rmult_le_pos.
Qed.

Lemma straightTrack_lengths :
  segmentLengths straightTrack = [1000] ∧ totalLength straightTrack = 1000.
Proof.
  assert (H : hypot (1000 - 0) (0 - 0) = 1000).
  { unfold hypot. replace ((1000 - 0) * (1000 - 0) + (0 - 0) * (0 - 0))
      with (1000 * 1000) by lra. apply sqrt_square. lra. }
  unfold straightTrack, pathOf, sumLengths. simpl. rewrite H. split; [done|lra].
Qed.

(** On the straight track a distance inside the track lies at that
    abscissa. *)
Lemma getPointAt_straightTrack (d : R) :
  0 <= d < 1000 →
  ∃ pos, getPointAt straightTrack d = Some pos ∧
         Located.x pos = d ∧ Located.y pos = 0.
Proof.
  intros Hd. destruct straightTrack_lengths as [Hsegs Htotal].
  unfold getPointAt. rewrite decide_False by lra.
  rewrite Htotal, decide_False by lra. rewrite Hsegs.
  cbn [length walkSegments]. rewrite Hsegs. cbn [length].
  rewrite (decide_False (P := (1 ≤ 0)%nat)) by lia. simpl.
  rewrite decide_True by lra. eexists. split; [done|]. simpl. split; field.
Qed.

(** ** checkCollision *)

Lemma collisionLoop_first (c : BallChain) (projectile : Projectile.t) (fuel i : nat) :
  wfPath (path c) → (length (balls c) - i <= fuel)%nat →
  (∀ j b q, (j < i)%nat → balls c !! j = Some b →
     getPointAt (path c) (Ball.distance b) = Some q → ¬ circlesOverlap q b projectile) →
  (∃ k ball pos,
     collisionLoop c projectile fuel i
       = Some (Some (Hit.mk k ball (Located.x pos) (Located.y pos))) ∧
     balls c !! k = Some ball ∧
     getPointAt (path c) (Ball.distance ball) = Some pos ∧
     circlesOverlap pos ball projectile ∧
     ∀ j b q, (j < k)%nat → balls c !! j = Some b →
       getPointAt (path c) (Ball.distance b) = Some q → ¬ circlesOverlap q b projectile)
  ∨ (collisionLoop c projectile fuel i = Some None ∧
     ∀ j b q, balls c !! j = Some b →
       getPointAt (path c) (Ball.distance b) = Some q → ¬ circlesOverlap q b projectile).
Proof.
  intros Hwf. revert i. induction fuel as [|fuel IH]; intros i Hfuel Hbefore.
  - right. simpl. rewrite decide_True by lia. split; [done|].
    intros j b q Hj. apply (Hbefore j); [|done]. apply lookup_lt_Some in Hj. lia.
  - simpl. destruct (decide (length (balls c) ≤ i)) as [Hi|Hi].
    { right. split; [done|]. intros j b q Hj. apply (Hbefore j); [|done].
      apply lookup_lt_Some in Hj. lia. }
    destruct (lookup_lt_is_Some_2 (balls c) i) as [ball Hball]; [lia|].
    rewrite Hball. simpl.
    destruct (getPointAt_total (path c) (Ball.distance ball) Hwf) as [pos Hpos].
    rewrite Hpos. simpl.
    destruct (decide (_ < _)) as [Hhit|Hmiss].
    + left. exists i, ball, pos. done.
    + apply IH; [lia|]. intros j b q Hj Hb Hq.
      destruct (decide (j = i)) as [->|Hne]; [|apply (Hbefore j); [lia|done..]].
      rewrite Hball in Hb. injection Hb as <-. rewrite Hpos in Hq. injection Hq as <-.
      exact Hmiss.
Qed.

(** C7: [checkCollision] walks the balls by ascending index and tests, for
    each, whether its circle at its position on the path overlaps the
    circle of the projectile.  It returns the first index at which they do
    (every earlier ball misses; a later ball may be nearer), with that ball
    and its position, and it returns [null] exactly when no ball
    overlaps. *)
Theorem checkCollision_first_overlap (projectile : Projectile.t) (c : BallChain) :
  wfPath (path c) →
  (∃ k ball pos,
     checkCollision projectile c
       = Some (Some (Hit.mk k ball (Located.x pos) (Located.y pos))) ∧
     balls c !! k = Some ball ∧
     getPointAt (path c) (Ball.distance ball) = Some pos ∧
     circlesOverlap pos ball projectile ∧
     ∀ j b q, (j < k)%nat → balls c !! j = Some b →
       getPointAt (path c) (Ball.distance b) = Some q → ¬ circlesOverlap q b projectile)
  ∨ (checkCollision projectile c = Some None ∧
     ∀ j b q, balls c !! j = Some b →
       getPointAt (path c) (Ball.distance b) = Some q → ¬ circlesOverlap q b projectile).
Proof.
  intros Hwf. apply collisionLoop_first; [done|lia|]. intros j b q Hj. lia.
Qed.

Lemma checkCollision_first_overlap_witness :
  let c := chainOf [Ball.mk 0 red 0 18; Ball.mk 1 cyan 36 18] 30 in
  let projectile := Projectile.mk 30 0 0 0 red 18 in
  wfPath (path c) ∧
  ((∃ k ball pos,
      checkCollision projectile c
        = Some (Some (Hit.mk k ball (Located.x pos) (Located.y pos))) ∧
      balls c !! k = Some ball ∧
      getPointAt (path c) (Ball.distance ball) = Some pos ∧
      circlesOverlap pos ball projectile ∧
      ∀ j b q, (j < k)%nat → balls c !! j = Some b →
        getPointAt (path c) (Ball.distance b) = Some q → ¬ circlesOverlap q b projectile)
   ∨ (checkCollision projectile c = Some None ∧
      ∀ j b q, balls c !! j = Some b →
        getPointAt (path c) (Ball.distance b) = Some q → ¬ circlesOverlap q b projectile)).
Proof.
  intros c projectile.
  assert (Hwf : wfPath (path c)) by (apply wfPath_pathOf; simpl; lia).
  split; [exact Hwf|]. exact (checkCollision_first_overlap projectile c Hwf).
Defined.

(** The first ball that overlaps wins, although the second is nearer to
    the projectile. *)
Example checkCollision_first_not_nearest :
  let b0 := Ball.mk 0 red 0 18 in
  let b1 := Ball.mk 1 cyan 36 18 in
  let projectile := Projectile.mk 30 0 0 0 red 18 in
  ∃ hit,
    checkCollision projectile (chainOf [b0; b1] 30) = Some (Some hit) ∧
    Hit.index hit = 0%nat ∧ Hit.ball hit = b0 ∧ Hit.x hit = 0 ∧ Hit.y hit = 0 ∧
    hypot (36 - 30) (0 - 0) < hypot (0 - 30) (0 - 0).
Proof.
  intros b0 b1 projectile.
  destruct (getPointAt_straightTrack 0) as (pos & Hpos & Hx & Hy); [lra|].
  exists (Hit.mk 0 b0 (Located.x pos) (Located.y pos)).
  split; [|split; [done|split; [done|split; [done|split; [done|]]]]].
  - unfold checkCollision. simpl. rewrite Hpos. simpl. rewrite Hx, Hy.
    rewrite decide_True; [done|]. apply sqrt_below; nra.
  - unfold hypot.
    replace ((36 - 30) * (36 - 30) + (0 - 0) * (0 - 0)) with (6 * 6) by lra.
    replace ((0 - 30) * (0 - 30) + (0 - 0) * (0 - 0)) with (30 * 30) by lra.
    rewrite !sqrt_square by lra. lra.
Qed.

(** ** update: sorting and segments *)

Lemma length_insertByDistance (b : Ball.t) (l : list Ball.t) :
  length (insertByDistance b l) = S (length l).
Proof.
  induction l as [|b' l IH]; simpl; [done|].
  destruct (decide _); simpl; [done|]. by rewrite IH.
Qed.

Lemma length_sortByDistance (l : list Ball.t) :
  length (sortByDistance l) = length l.
Proof.
  induction l as [|b l IH]; simpl; [done|].
  by rewrite length_insertByDistance, IH.
Qed.

Lemma insertByDistance_Permutation (b : Ball.t) (l : list Ball.t) :
  insertByDistance b l ≡ₚ b :: l.
Proof.
  induction l as [|b' l IH]; simpl; [done|].
  destruct (decide _); [done|]. rewrite IH. apply Permutation_swap.
Qed.

Lemma sortByDistance_Permutation (l : list Ball.t) : sortByDistance l ≡ₚ l.
Proof.
  induction l as [|b l IH]; simpl; [done|].
  by rewrite insertByDistance_Permutation, IH.
Qed.

Lemma insertByDistance_Sorted (b : Ball.t) (l : list Ball.t) :
  Sorted (λ x y, Ball.distance x <= Ball.distance y) l →
  Sorted (λ x y, Ball.distance x <= Ball.distance y) (insertByDistance b l).
Proof.
  induction 1 as [|b' l Hl IH Hhd]; simpl; [by repeat constructor|].
  destruct (decide _) as [Hle|Hgt].
  - constructor; [by constructor|by constructor].
  - constructor; [done|]. destruct Hhd as [|b'' l' Hb'']; simpl.
    + constructor. lra.
    + destruct (decide _); constructor; lra.
Qed.

(** The sort returns the balls in ascending order of distance. *)
Lemma sortByDistance_Sorted (l : list Ball.t) :
  Sorted (λ x y, Ball.distance x <= Ball.distance y) (sortByDistance l).
Proof.
  induction l as [|b l IH]; simpl; [constructor|]. by apply insertByDistance_Sorted.
Qed.

Lemma buildSegments_total (bs : list Ball.t) (diameter epsilon : R) :
  bs ≠ [] →
  ∃ segments, buildSegments bs diameter epsilon = Some segments ∧
              segmentation (length bs) segments.
Proof.
  intros Hne. unfold buildSegments.
  destruct (forM_seq_inv
    (λ i st, concat (st.1 ++ [st.2]) = seq 0 i ∧ st.2 ≠ [] ∧ Forall (λ g, g ≠ []) st.1)
    1 (length bs - 1) (segmentStep bs diameter epsilon) ([], [0%nat]))
    as ([segments cur] & -> & Hcat & Hcur & Hsegs).
  - done.
  - intros i [segments cur] Hi (Hcat & Hcur & Hsegs). unfold segmentStep.
    destruct (lookup_lt_is_Some_2 bs i) as [ball ->]; [lia|].
    destruct (lookup_lt_is_Some_2 bs (i - 1)) as [prevBall ->]; [lia|]. simpl.
    simpl in Hcat, Hcur, Hsegs.
    rewrite concat_app in Hcat. simpl in Hcat. rewrite app_nil_r in Hcat.
    assert (Hnext : seq 0 (S i) = seq 0 i ++ [i]) by (by rewrite seq_S).
    destruct (decide _); eexists; (split; [done|]); cbn [fst snd].
    + rewrite concat_app. simpl concat. rewrite app_nil_r, app_assoc, Hcat.
      split; [done|]. split; [|done]. by destruct cur.
    + rewrite !concat_app. simpl concat. rewrite !app_nil_r, Hcat.
      split; [done|]. split; [done|].
      apply Forall_app. split; [done|]. by constructor.
  - simpl. exists (segments ++ [cur]). split; [done|].
    simpl in Hcat, Hcur, Hsegs. split.
    + rewrite Hcat. destruct bs; [done|]. simpl. by rewrite Nat.sub_0_r.
    + apply Forall_app. split; [done|]. by constructor.
Qed.

Lemma segmentation_refs (n : nat) (segments : list (list nat)) (i : nat)
    (segment : list nat) (r : nat) :
  segmentation n segments → segments !! i = Some segment → r ∈ segment →
  (r < n)%nat.
Proof.
  intros [Hcat _] Hi Hr.
  assert (Hin : r ∈ concat segments).
  { apply list_elem_of_In, in_concat. exists segment.
    split; apply list_elem_of_In; [by apply list_elem_of_lookup_2 with i|done]. }
  rewrite Hcat in Hin. apply elem_of_seq in Hin. lia.
Qed.

Lemma segmentation_nonempty (n : nat) (segments : list (list nat)) (i : nat)
    (segment : list nat) :
  segmentation n segments → segments !! i = Some segment → segment ≠ [].
Proof.
  intros [_ Hne] Hi. rewrite Forall_lookup in Hne. by apply (Hne i).
Qed.

Lemma segmentation_NoDup (n : nat) (segments : list (list nat)) :
  segmentation n segments → NoDup (concat segments).
Proof. intros [-> _]. apply NoDup_seq. Qed.

(** ** update: motion *)

Lemma advance_all_total (moveSpeed dt : R) (segment : list nat) (bs : list Ball.t) :
  Forall (λ r, r < length bs)%nat segment →
  ∃ bs', forM segment (advance moveSpeed dt) bs = Some bs' ∧ length bs' = length bs.
Proof.
  intros Hrefs.
  destruct (forM_inv (λ bs', length bs' = length bs) (λ r, r < length bs)%nat
              segment (advance moveSpeed dt) bs) as (bs' & ? & ?); [done..| |by eauto].
  intros r cur Hr Hlen. unfold advance.
  destruct (lookup_lt_is_Some_2 cur r) as [ball ->]; [lia|]. simpl.
  eexists. split; [done|]. by rewrite length_insert.
Qed.

Lemma moveSpeedOf_total (speed attractionSpeed diameter : R)
    (segments : list (list nat)) (i : nat) (segment : list nat) (bs : list Ball.t) :
  segmentation (length bs) segments → segments !! i = Some segment →
  is_Some (moveSpeedOf speed attractionSpeed diameter segments i segment bs).
Proof.
  intros Hseg Hi. unfold moveSpeedOf. destruct (decide (i = 0%nat)); [done|].
  destruct (lookup_lt_is_Some_2 segments (i - 1)) as [prevSegment Hprev].
  { apply lookup_lt_Some in Hi. lia. }
  rewrite Hprev. simpl.
  pose proof (segmentation_nonempty _ _ _ _ Hseg Hprev) as Hpne.
  destruct (at_in_range prevSegment (Z.of_nat (length prevSegment) - 1)) as [t Ht].
  { destruct prevSegment; [done|]. simpl. lia. }
  rewrite Ht. simpl.
  assert (Htin : t ∈ prevSegment).
  { unfold at_ in Ht. case_decide; [|done]. by apply list_elem_of_lookup_2 in Ht. }
  destruct (lookup_lt_is_Some_2 bs t) as [prevTail ->].
  { by apply (segmentation_refs _ _ _ _ _ Hseg Hprev). }
  simpl. destruct segment as [|hd tl].
  { by apply (segmentation_nonempty _ _ _ _ Hseg) in Hi. }
  simpl. destruct (lookup_lt_is_Some_2 bs hd) as [head ->]; [|done].
  apply (segmentation_refs _ _ _ _ _ Hseg Hi). by left.
Qed.

Lemma moveSegments_total (speed attractionSpeed diameter dt : R)
    (segments : list (list nat)) (bs : list Ball.t) :
  segmentation (length bs) segments →
  ∃ bs', moveSegments speed attractionSpeed diameter dt segments bs = Some bs' ∧
         length bs' = length bs.
Proof.
  intros Hseg. unfold moveSegments.
  destruct (forM_seq_inv (λ _ bs', length bs' = length bs) 0 (length segments)
              (moveStep speed attractionSpeed diameter dt segments) bs)
    as (bs' & ? & ?); [done| |by eauto].
  intros i cur Hi Hlen. unfold moveStep.
  destruct (lookup_lt_is_Some_2 segments i) as [segment Hsegment]; [lia|].
  rewrite Hsegment. simpl. rewrite <- Hlen in Hseg.
  destruct (moveSpeedOf_total speed attractionSpeed diameter _ _ _ _ Hseg Hsegment)
    as [v ->]. simpl.
  destruct (advance_all_total v dt segment cur) as (bs' & -> & Hlen');
    [|exists bs'; split; [done|lia]].
  apply Forall_forall. intros r Hr. by apply (segmentation_refs _ _ _ _ _ Hseg Hsegment).
Qed.

Lemma movedBy_nil (v dt : R) (bs : list Ball.t) : movedBy v dt [] bs = bs.
Proof.
  apply list_eq. intros j. unfold movedBy. rewrite list_lookup_imap.
  by destruct (bs !! j).
Qed.

Lemma length_movedBy (v dt : R) (segment : list nat) (bs : list Ball.t) :
  length (movedBy v dt segment bs) = length bs.
Proof. apply length_imap. Qed.

Lemma lookup_movedBy_in (v dt : R) (segment : list nat) (cur : list Ball.t)
    (r : nat) (b : Ball.t) :
  r ∈ segment → cur !! r = Some b →
  movedBy v dt segment cur !! r
  = Some (Ball.setDistance b (Ball.distance b + v * dt)).
Proof.
  intros Hin Hb. unfold movedBy. rewrite list_lookup_imap, Hb. simpl.
  by rewrite decide_True.
Qed.

Lemma lookup_movedBy_out (v dt : R) (segment : list nat) (cur : list Ball.t)
    (r : nat) :
  r ∉ segment → movedBy v dt segment cur !! r = cur !! r.
Proof.
  intros Hout. unfold movedBy. rewrite list_lookup_imap.
  destruct (cur !! r); simpl; [|done]. by rewrite decide_False.
Qed.

(** Writing through the references of a segment moves exactly its
    balls, each by the one [moveSpeed * dt]. *)
Lemma advance_all_movedBy (v dt : R) (segment : list nat) (bs : list Ball.t) :
  NoDup segment → Forall (λ r, r < length bs)%nat segment →
  forM segment (advance v dt) bs = Some (movedBy v dt segment bs).
Proof.
  intros Hnd. revert bs. induction Hnd as [|r segment Hr Hnd IH]; intros bs Hrefs.
  - simpl. by rewrite movedBy_nil.
  - apply Forall_cons in Hrefs as [Hlt Hrefs]. cbn [forM].
    destruct (lookup_lt_is_Some_2 bs r Hlt) as [ball Hball].
    assert (Hadv : advance v dt r bs
                   = Some (<[r := Ball.setDistance ball (Ball.distance ball + v * dt)]> bs))
      by (unfold advance; by rewrite Hball).
    rewrite Hadv. cbn [mbind option_bind].
    rewrite IH.
    2:{ eapply Forall_impl; [exact Hrefs|]. intros x Hx. simpl. by rewrite length_insert. }
    f_equal. apply list_eq. intros j. unfold movedBy. rewrite !list_lookup_imap.
    destruct (decide (j = r)) as [->|Hne].
    + rewrite list_lookup_insert_eq by done. rewrite Hball. simpl.
      rewrite decide_False by done. rewrite decide_True by (by left). done.
    + rewrite list_lookup_insert_ne by done.
      destruct (bs !! j) as [b|]; simpl; [|done].
      destruct (decide (j ∈ segment)) as [Hin|Hout].
      * rewrite decide_True by (by right). done.
      * rewrite decide_False; [done|]. intros [?|?]%elem_of_cons; done.
Qed.

(** One turn of the motion loop on the store [cur] as the loop finds it:
    all balls of the segment get one velocity; for segment 0 it is the
    base speed, for a later segment it is [pullSpeed] of the gap between
    its first ball and the last ball of the segment before it, both read
    from [cur]. *)
Lemma moveStep_spec (speed attractionSpeed diameter dt : R)
    (segments : list (list nat)) (i : nat) (segment : list nat)
    (cur : list Ball.t) :
  segmentation (length cur) segments → segments !! i = Some segment →
  ∃ v,
    moveSpeedOf speed attractionSpeed diameter segments i segment cur = Some v ∧
    moveStep speed attractionSpeed diameter dt segments i cur
    = Some (movedBy v dt segment cur) ∧
    (i = 0%nat → v = speed) ∧
    (i ≠ 0%nat →
     ∃ prevSegment tailRef headRef prevTail head,
       segments !! (i - 1)%nat = Some prevSegment ∧
       last prevSegment = Some tailRef ∧ segment !! 0%nat = Some headRef ∧
       cur !! tailRef = Some prevTail ∧ cur !! headRef = Some head ∧
       v = pullSpeed attractionSpeed
             (Ball.distance head - Ball.distance prevTail - diameter)).
Proof.
  intros Hseg Hi.
  destruct (moveSpeedOf_total speed attractionSpeed diameter _ _ _ _ Hseg Hi) as [v Hv].
  exists v. split; [done|]. split; [|split].
  - unfold moveStep. rewrite Hi. simpl. rewrite Hv. simpl.
    apply advance_all_movedBy.
    + apply (concat_NoDup_member segments i); [|done]. by apply segmentation_NoDup in Hseg.
    + apply Forall_forall. intros r Hr. by apply (segmentation_refs _ _ _ _ _ Hseg Hi).
  - intros ->. unfold moveSpeedOf in Hv. rewrite decide_True in Hv by done.
    by injection Hv.
  - intros Hne. unfold moveSpeedOf in Hv. rewrite decide_False in Hv by done.
    destruct (segments !! (i - 1)%nat) as [prevSegment|] eqn:Hprev; [|done].
    simpl in Hv.
    destruct (at_ prevSegment (Z.of_nat (length prevSegment) - 1)) as [tailRef|] eqn:Htail;
      [|done].
    simpl in Hv. destruct (cur !! tailRef) as [prevTail|] eqn:HprevTail; [|done].
    simpl in Hv. destruct (segment !! 0%nat) as [headRef|] eqn:Hhead; [|done].
    simpl in Hv. destruct (cur !! headRef) as [head|] eqn:Hhd; [|done].
    simpl in Hv. injection Hv as <-.
    exists prevSegment, tailRef, headRef, prevTail, head.
    repeat split; try done.
    rewrite last_lookup. unfold at_ in Htail. case_decide; [|done].
    rewrite <- Htail. f_equal. lia.
Qed.

(** A pulled segment moves back exactly when the gap it reads is above
    -25. *)
Lemma pullSpeed_negative (attractionSpeed gap : R) :
  0 < attractionSpeed → (pullSpeed attractionSpeed gap < 0 ↔ -25 < gap).
Proof.
  intros Hpos. unfold pullSpeed, Rmin. destruct (Rle_dec _ _); split; intros H; nra.
Qed.

(** The motion loop as a whole, against the store [bs] it starts from:
    there is one velocity per segment, and every ball of a segment ends at
    its old distance plus that velocity times [dt].  Segment 0 has the base
    speed.  A later segment has [pullSpeed] of a gap that is measured from
    the old distance of its first ball to the new distance of the last
    ball of the segment before it, which the loop has moved already. *)
Lemma moveSegments_spec (speed attractionSpeed diameter dt : R)
    (segments : list (list nat)) (bs : list Ball.t) :
  segmentation (length bs) segments →
  ∃ vs moved,
    moveSegments speed attractionSpeed diameter dt segments bs = Some moved ∧
    length moved = length bs ∧ length vs = length segments ∧
    (∀ i segment v r b,
       segments !! i = Some segment → vs !! i = Some v → r ∈ segment →
       bs !! r = Some b →
       moved !! r = Some (Ball.setDistance b (Ball.distance b + v * dt))) ∧
    (∀ v, vs !! 0%nat = Some v → v = speed) ∧
    (∀ i prevSegment segment tailRef headRef prevTail head v,
       i ≠ 0%nat →
       segments !! (i - 1)%nat = Some prevSegment → segments !! i = Some segment →
       last prevSegment = Some tailRef → segment !! 0%nat = Some headRef →
       moved !! tailRef = Some prevTail → bs !! headRef = Some head →
       vs !! i = Some v →
       v = pullSpeed attractionSpeed
             (Ball.distance head - Ball.distance prevTail - diameter)).
Proof.
  intros Hseg. pose proof (segmentation_NoDup _ _ Hseg) as Hnd. unfold moveSegments.
  destruct (forM_seq_inv
    (λ k cur, ∃ vs,
       length cur = length bs ∧ length vs = k ∧
       (∀ i segment v r b,
          segments !! i = Some segment → vs !! i = Some v → r ∈ segment →
          bs !! r = Some b →
          cur !! r = Some (Ball.setDistance b (Ball.distance b + v * dt))) ∧
       (∀ i segment r, (k <= i)%nat → segments !! i = Some segment → r ∈ segment →
          cur !! r = bs !! r) ∧
       (∀ v, vs !! 0%nat = Some v → v = speed) ∧
       (∀ i prevSegment segment tailRef headRef prevTail head v,
          i ≠ 0%nat →
          segments !! (i - 1)%nat = Some prevSegment → segments !! i = Some segment →
          last prevSegment = Some tailRef → segment !! 0%nat = Some headRef →
          cur !! tailRef = Some prevTail → bs !! headRef = Some head →
          vs !! i = Some v →
          v = pullSpeed attractionSpeed
                (Ball.distance head - Ball.distance prevTail - diameter)))
    0 (length segments)
    (moveStep speed attractionSpeed diameter dt segments) bs)
    as (moved & Hrun & vs & Hlen & Hvs & Hmoved & _ & Hfirst & Hpull).
  - exists []. repeat split; try done.
  - intros k cur Hk (vs & Hlen & Hvs & Hdone & Htodo & Hfirst & Hpull).
    destruct (lookup_lt_is_Some_2 segments k) as [segment Hsegment]; [lia|].
    rewrite <- Hlen in Hseg.
    destruct (moveStep_spec speed attractionSpeed diameter dt segments k segment cur
                Hseg Hsegment) as (v & _ & Hstep & Hv0 & Hvk).
    exists (movedBy v dt segment cur). split; [done|].
    assert (Hother : ∀ i s r, i ≠ k → segments !! i = Some s → r ∈ s →
              movedBy v dt segment cur !! r = cur !! r).
    { intros i s r Hne Hs Hr. apply lookup_movedBy_out. intros Hr'.
      apply Hne. by apply (concat_NoDup_disjoint segments i k s segment r). }
    exists (vs ++ [v]). split; [by rewrite length_movedBy|].
    split; [rewrite length_app; simpl; lia|]. split; [|split; [|split]].
    + intros i s w r b Hs Hw Hr Hb. destruct (decide (i = k)) as [->|Hne].
      * rewrite Hsegment in Hs. injection Hs as <-.
        rewrite lookup_app_r, Hvs, Nat.sub_diag in Hw by lia. injection Hw as <-.
        apply lookup_movedBy_in; [done|]. by rewrite (Htodo k segment r).
      * rewrite (Hother i s r) by done. apply (Hdone i s); try done.
        assert (i < length (vs ++ [v]))%nat by (by apply lookup_lt_Some in Hw).
        rewrite length_app in H. simpl in H. by rewrite lookup_app_l in Hw by lia.
    + intros i s r Hi Hs Hr. rewrite (Hother i s r) by (done || lia).
      apply (Htodo i s); [lia|done..].
    + intros w Hw. destruct vs as [|w0 vs'].
      * simpl in Hw. injection Hw as <-. apply Hv0. simpl in Hvs. lia.
      * simpl in Hw. injection Hw as <-. by apply Hfirst.
    + intros i prevSegment s tailRef headRef prevTail head w Hi Hprev Hs Htail
        Hhead HprevTail Hhd Hw.
      assert (Htail_in : tailRef ∈ prevSegment) by (by apply last_Some_elem_of).
      assert (Hi_lt : (i < length (vs ++ [v]))%nat) by (by apply lookup_lt_Some in Hw).
      rewrite length_app in Hi_lt. simpl in Hi_lt.
      destruct (decide (i = k)) as [->|Hne].
      * rewrite Hsegment in Hs. injection Hs as <-.
        rewrite lookup_app_r, Hvs, Nat.sub_diag in Hw by lia. injection Hw as <-.
        destruct (Hvk Hi) as (prevSegment' & tailRef' & headRef' & prevTail' & head'
                              & Hprev' & Htail' & Hhead' & HprevTail' & Hhd' & ->).
        rewrite Hprev in Hprev'. injection Hprev' as <-.
        rewrite Htail in Htail'. injection Htail' as <-.
        rewrite Hhead in Hhead'. injection Hhead' as <-.
        rewrite (Hother (k - 1)%nat prevSegment tailRef) in HprevTail by (done || lia).
        rewrite HprevTail in HprevTail'. injection HprevTail' as <-.
        rewrite (Htodo k segment headRef) in Hhd'; [|lia|done|].
        2:{ by apply list_elem_of_lookup_2 with 0%nat. }
        rewrite Hhd in Hhd'. by injection Hhd' as <-.
      * rewrite lookup_app_l in Hw by lia.
        rewrite (Hother (i - 1)%nat prevSegment tailRef) in HprevTail by (done || lia).
        by apply (Hpull i prevSegment s tailRef headRef prevTail head w).
  - exists vs, moved. repeat split; try done.
Qed.

Example motion_sample :
  let c := chainOf [Ball.mk 0 red 0 18; Ball.mk 1 cyan 50 18] 30 in
  let diameter := ballRadius c * 2 in
  sortByDistance (balls c) = balls c ∧
  buildSegments (balls c) diameter 2 = Some [[0%nat]; [1%nat]] ∧
  ∃ v d0 d1,
    moveSpeedOf (speed c) (speed c * 4) diameter [[0%nat]; [1%nat]] 1 [1%nat]
      [Ball.mk 0 red d0 18; Ball.mk 1 cyan 50 18] = Some v ∧
    moveSegments (speed c) (speed c * 4) diameter 1 [[0%nat]; [1%nat]] (balls c)
    = Some [Ball.mk 0 red d0 18; Ball.mk 1 cyan d1 18] ∧
    d0 = 55 ∧ v = 70.4 ∧ d1 = 120.4.
Proof.
  intros c diameter. subst c diameter. simpl. split; [|split].
  - by decide_reals.
  - unfold buildSegments. simpl. by decide_reals.
  - eexists _, _, _. split; [|split].
    + unfold moveSpeedOf, at_. simpl. reflexivity.
    + unfold moveSegments, moveStep, moveSpeedOf, advance, at_. simpl. reflexivity.
    + split; [lra|]. rewrite Rmin_left by lra. split; lra.
Qed.

(** ** update: overlap resolution *)

Lemma resolveOverlaps_spaced (diameter : R) (bs : list Ball.t) :
  ∃ bs', resolveOverlaps diameter bs = Some bs' ∧ length bs' = length bs ∧
         spaced diameter bs'.
Proof.
  unfold resolveOverlaps.
  destruct (forM_seq_inv
    (λ k cur, length cur = length bs ∧
       ∀ j a b, (S j < k)%nat → cur !! j = Some a → cur !! S j = Some b →
         Ball.distance a + diameter <= Ball.distance b)
    1 (length bs - 1) (resolveStep diameter) bs) as (bs' & Hrun & Hlen & Hsp).
  - split; [done|]. intros; lia.
  - intros i cur Hi [Hlen Hsp]. unfold resolveStep.
    destruct (lookup_lt_is_Some_2 cur i) as [ball Hball]; [lia|].
    destruct (lookup_lt_is_Some_2 cur (i - 1)) as [prevBall Hprev]; [lia|].
    rewrite Hball, Hprev. simpl.
    destruct (decide _) as [Hov|Hov]; eexists; (split; [done|]).
    + split; [by rewrite length_insert|]. intros j a b Hj Ha Hb.
      destruct (decide (S j = i)) as [<-|Hne].
      * rewrite list_lookup_insert_ne in Ha by lia.
        rewrite list_lookup_insert_eq in Hb by lia.
        replace (S j - 1)%nat with j in Hprev by lia.
        rewrite Hprev in Ha. injection Ha as <-. injection Hb as <-. simpl. lra.
      * rewrite list_lookup_insert_ne in Ha by lia.
        rewrite list_lookup_insert_ne in Hb by lia. apply (Hsp j); [lia|done..].
    + split; [done|]. intros j a b Hj Ha Hb.
      destruct (decide (S j = i)) as [<-|Hne]; [|apply (Hsp j); [lia|done..]].
      replace (S j - 1)%nat with j in Hprev by lia.
      rewrite Hprev in Ha. injection Ha as <-. rewrite Hball in Hb. injection Hb as <-. lra.
  - exists bs'. split; [done|]. split; [done|]. intros i a b Ha Hb.
    apply (Hsp i); [|done..]. apply lookup_lt_Some in Hb. lia.
Qed.

Lemma spaced_StronglySorted (diameter : R) (bs : list Ball.t) :
  0 <= diameter → spaced diameter bs →
  StronglySorted (λ a b, Ball.distance a + diameter <= Ball.distance b) bs.
Proof.
  intros Hd Hsp. apply Sorted_StronglySorted.
  { intros a b c Hab Hbc. lra. }
  induction bs as [|a bs IH]; [constructor|].
  constructor.
  - apply IH. intros i x y Hx Hy. by apply (Hsp (S i)).
  - destruct bs as [|b bs]; constructor. by apply (Hsp 0%nat).
Qed.

Lemma StronglySorted_spaced (diameter : R) (bs : list Ball.t) :
  StronglySorted (λ a b, Ball.distance a + diameter <= Ball.distance b) bs →
  spaced diameter bs.
Proof.
  intros Hs%StronglySorted_Sorted. induction Hs as [|a bs Hs IH Hhd]; intros i x y Hx Hy.
  - done.
  - destruct i as [|i]; simpl in Hx, Hy.
    + injection Hx as <-. destruct Hhd as [|b bs' Hab]; [done|].
      simpl in Hy. by injection Hy as <-.
    + by apply (IH i).
Qed.

(** ** update: the match scan *)

Section scan.
Variables diameter epsilon : R.

Lemma linkedPrefix_le (color : string) (prev : Ball.t) (rest : list Ball.t) :
  (linkedPrefix diameter epsilon color prev rest <= length rest)%nat.
Proof.
  revert prev. induction rest as [|b rest IH]; intros prev; simpl; [lia|].
  destruct (String.eqb _ _); [|lia]. destruct (decide _); [|lia].
  specialize (IH b). lia.
Qed.

(** The inner loop counts exactly the linked prefix. *)
Lemma runLoop_linkedPrefix (color : string) (pre : list Ball.t) (prev : Ball.t)
    (rest : list Ball.t) (fuel count : nat) :
  (length rest <= fuel)%nat →
  runLoop diameter epsilon (pre ++ prev :: rest) color fuel count (length pre + 1)
  = Some ((count + linkedPrefix diameter epsilon color prev rest)%nat,
          (length pre + 1 + linkedPrefix diameter epsilon color prev rest)%nat).
Proof.
  revert pre prev fuel count.
  induction rest as [|b rest IH]; intros pre prev fuel count Hfuel.
  - destruct fuel; simpl; rewrite decide_True by (rewrite length_app; simpl; lia);
      do 2 f_equal; lia.
  - destruct fuel as [|fuel]; [simpl in Hfuel; lia|].
    assert (Hj : (pre ++ prev :: b :: rest) !! (length pre + 1)%nat = Some b).
    { rewrite lookup_app_r by lia.
      by replace (length pre + 1 - length pre)%nat with 1%nat by lia. }
    assert (Hj1 : (pre ++ prev :: b :: rest) !! (length pre + 1 - 1)%nat = Some prev).
    { replace (length pre + 1 - 1)%nat with (length pre) by lia.
      by apply list_lookup_middle. }
    simpl. rewrite decide_False by (rewrite length_app; simpl; lia).
    rewrite Hj. simpl.
    destruct (String.eqb _ _); [|do 2 f_equal; lia].
    rewrite Hj1. simpl.
    destruct (decide _); [|do 2 f_equal; lia].
    replace (pre ++ prev :: b :: rest) with ((pre ++ [prev]) ++ b :: rest)
      by (by rewrite <- app_assoc).
    replace (S (length pre + 1)) with (length (pre ++ [prev]) + 1)%nat
      by (rewrite length_app; simpl; lia).
    rewrite IH by (simpl in Hfuel; lia).
    rewrite length_app. simpl. do 2 f_equal; lia.
Qed.

Lemma runs_cons (b : Ball.t) (rest : list Ball.t) :
  let n := linkedPrefix diameter epsilon (Ball.color b) b rest in
  runs diameter epsilon (b :: rest)
  = (b :: take n rest) :: runs diameter epsilon (drop n rest).
Proof.
  revert b. induction rest as [|b' rest IH]; intros b; [done|].
  cbn zeta. specialize (IH b'). cbn zeta in IH.
  change (runs diameter epsilon (b :: b' :: rest)) with
    (match runs diameter epsilon (b' :: rest) with
     | (b0 :: g) :: gs =>
         if linked diameter epsilon b b0 then (b :: b0 :: g) :: gs
         else [b] :: (b0 :: g) :: gs
     | _ => [[b]]
     end).
  rewrite IH. unfold linked. simpl linkedPrefix.
  destruct (String.eqb (Ball.color b') (Ball.color b)) eqn:Hcol; simpl.
  - apply String.eqb_eq in Hcol.
    destruct (decide _) as [Hgap|Hgap].
    + rewrite bool_decide_eq_true_2 by done. simpl. by rewrite Hcol.
    + rewrite bool_decide_eq_false_2 by done. simpl. by rewrite <- IH.
  - by rewrite <- IH.
Qed.

Lemma concat_runs (bs : list Ball.t) : concat (runs diameter epsilon bs) = bs.
Proof.
  remember (length bs) as n eqn:Hn. revert bs Hn.
  induction n as [n IH] using lt_wf_ind. intros [|b rest] Hn; [done|].
  rewrite runs_cons. cbn zeta. simpl.
  pose proof (linkedPrefix_le (Ball.color b) b rest).
  rewrite (IH (length (drop (linkedPrefix diameter epsilon (Ball.color b) b rest) rest))).
  - by rewrite take_drop.
  - rewrite length_drop. simpl in Hn. lia.
  - done.
Qed.

(** The outer loop, started at the end of what it has already kept. *)
Lemma matchLoop_runs (fuel : nat) (pre suf : list Ball.t) (calls : list nat) :
  (length suf <= fuel)%nat →
  matchLoop diameter epsilon fuel (pre ++ suf) (length pre) calls
  = Some (pre ++ keptRuns (runs diameter epsilon suf),
          calls ++ reportedRuns (runs diameter epsilon suf)).
Proof.
  revert pre suf calls. induction fuel as [|fuel IH]; intros pre suf calls Hfuel.
  - destruct suf; [|simpl in Hfuel; lia]. simpl.
    rewrite decide_True by (rewrite length_app; simpl; lia).
    by rewrite !app_nil_r.
  - destruct suf as [|b rest].
    { simpl. rewrite decide_True by (rewrite length_app; simpl; lia).
      by rewrite !app_nil_r. }
    rewrite runs_cons. cbn zeta.
    set (n := linkedPrefix diameter epsilon (Ball.color b) b rest).
    assert (Hn : (n <= length rest)%nat) by apply linkedPrefix_le.
    assert (Hkept : ∀ gs, keptRuns ((b :: take n rest) :: gs)
              = if decide (3 ≤ S n) then keptRuns gs
                else (b :: take n rest) ++ keptRuns gs).
    { intros gs. unfold keptRuns. rewrite filter_cons. simpl length.
      rewrite length_take, Nat.min_l by done.
      destruct (decide (3 ≤ S n)); [by rewrite decide_False by lia|].
      by rewrite decide_True by lia. }
    assert (Hrep : ∀ gs, reportedRuns ((b :: take n rest) :: gs)
              = if decide (3 ≤ S n) then S n :: reportedRuns gs
                else reportedRuns gs).
    { intros gs. unfold reportedRuns. rewrite filter_cons. simpl length.
      rewrite length_take, Nat.min_l by done.
      destruct (decide (3 ≤ S n)); [|done].
      rewrite fmap_cons. simpl. by rewrite length_take, Nat.min_l by done. }
    rewrite Hkept, Hrep. clear Hkept Hrep.
    cbn [matchLoop]. rewrite decide_False by (rewrite length_app; simpl; lia).
    rewrite list_lookup_middle by done. cbn [mbind option_bind].
    rewrite runLoop_linkedPrefix by (rewrite length_app; simpl; lia).
    fold n. cbn [mbind option_bind]. replace (1 + n)%nat with (S n) by done.
    destruct (decide (3 ≤ S n)) as [Hrun|Hrun].
    + assert (Hsplice : splice (length pre) (S n) [] (pre ++ b :: rest)
                        = pre ++ drop n rest).
      { unfold splice. rewrite take_app_length. simpl.
        by rewrite drop_app_add'. }
      rewrite Hsplice, IH by (rewrite length_drop; simpl in Hfuel; lia).
      by rewrite <- app_assoc.
    + replace (pre ++ b :: rest) with ((pre ++ b :: take n rest) ++ drop n rest).
      2:{ rewrite <- app_assoc. simpl. by rewrite take_drop. }
      replace (length pre + 1 + n)%nat with (length (pre ++ b :: take n rest)).
      2:{ rewrite length_app. simpl. rewrite length_take. lia. }
      rewrite IH by (rewrite length_drop; simpl in Hfuel; lia).
      by rewrite <- !app_assoc.
Qed.

Lemma matchScan_runs (bs : list Ball.t) :
  matchScan diameter epsilon bs
  = Some (keptRuns (runs diameter epsilon bs), reportedRuns (runs diameter epsilon bs)).
Proof. unfold matchScan. by apply (matchLoop_runs (length bs) [] bs []). Qed.

Lemma runs_head (b : Ball.t) (rest : list Ball.t) :
  ∃ g gs, runs diameter epsilon (b :: rest) = (b :: g) :: gs.
Proof. rewrite runs_cons. by eexists _, _. Qed.

Lemma runs_step (b b' : Ball.t) (rest g : list Ball.t) (gs : list (list Ball.t)) :
  runs diameter epsilon (b' :: rest) = (b' :: g) :: gs →
  runs diameter epsilon (b :: b' :: rest)
  = if linked diameter epsilon b b' then (b :: b' :: g) :: gs
    else [b] :: (b' :: g) :: gs.
Proof.
  intros Hrest.
  change (runs diameter epsilon (b :: b' :: rest)) with
    (match runs diameter epsilon (b' :: rest) with
     | (b0 :: g) :: gs =>
         if linked diameter epsilon b b0 then (b :: b0 :: g) :: gs
         else [b] :: (b0 :: g) :: gs
     | _ => [[b]]
     end).
  by rewrite Hrest.
Qed.

Lemma runs_single (run : list Ball.t) :
  run ≠ [] → inContact diameter epsilon run → runs diameter epsilon run = [run].
Proof.
  induction run as [|b run IH]; intros Hne Hrun; [done|].
  destruct run as [|b' run]; [done|].
  rewrite (runs_step b b' run run []).
  - by rewrite (Hrun 0%nat b b').
  - apply IH; [done|]. intros i x y. apply (Hrun (S i)).
Qed.

Lemma runs_app (l1 l2 : list Ball.t) :
  notLinked diameter epsilon (last l1) (head l2) →
  runs diameter epsilon (l1 ++ l2)
  = runs diameter epsilon l1 ++ runs diameter epsilon l2.
Proof.
  induction l1 as [|b l1 IH]; intros Hcut; [done|].
  destruct l1 as [|b1 l1].
  - simpl app. destruct l2 as [|b' l2]; [done|].
    destruct (runs_head b' l2) as (g & gs & Hl2).
    rewrite (runs_step _ _ _ _ _ Hl2), Hl2. simpl in Hcut. by rewrite Hcut.
  - destruct (runs_head b1 l1) as (g & gs & Hl1).
    assert (Hboth : runs diameter epsilon ((b1 :: l1) ++ l2)
                    = (b1 :: g) :: gs ++ runs diameter epsilon l2).
    { rewrite IH by done. by rewrite Hl1. }
    change ((b :: b1 :: l1) ++ l2) with (b :: b1 :: (l1 ++ l2)).
    rewrite (runs_step _ _ _ _ _ Hboth), (runs_step _ _ _ _ _ Hl1).
    by destruct (linked diameter epsilon b b1).
Qed.

(** The runs of an array around one of its maximal runs. *)
Lemma runs_around (before run after : list Ball.t) :
  maximalRun diameter epsilon before run after →
  runs diameter epsilon (before ++ run ++ after)
  = runs diameter epsilon before ++ run :: runs diameter epsilon after.
Proof.
  intros (Hne & Hrun & Hleft & Hright).
  rewrite (runs_app before (run ++ after)) by (by destruct run).
  rewrite (runs_app run after) by done. by rewrite (runs_single run).
Qed.

Lemma keptRuns_app (gs1 gs2 : list (list Ball.t)) :
  keptRuns (gs1 ++ gs2) = keptRuns gs1 ++ keptRuns gs2.
Proof. unfold keptRuns. by rewrite filter_app, concat_app. Qed.

Lemma reportedRuns_app (gs1 gs2 : list (list Ball.t)) :
  reportedRuns (gs1 ++ gs2) = reportedRuns gs1 ++ reportedRuns gs2.
Proof. unfold reportedRuns. by rewrite filter_app, fmap_app. Qed.

(** The scan of an array around one of its maximal runs: the run stays
    when it is shorter than 3 and goes, with one report of its length,
    otherwise; what lies before and after is scanned as if it stood
    alone. *)
Lemma matchScan_around (before run after : list Ball.t) :
  maximalRun diameter epsilon before run after →
  matchScan diameter epsilon (before ++ run ++ after)
  = Some (keptRuns (runs diameter epsilon before)
            ++ (if decide (3 <= length run)%nat then [] else run)
            ++ keptRuns (runs diameter epsilon after),
          reportedRuns (runs diameter epsilon before)
            ++ (if decide (3 <= length run)%nat then [length run] else [])
            ++ reportedRuns (runs diameter epsilon after)).
Proof.
  intros Hmax. rewrite matchScan_runs, runs_around by done.
  rewrite keptRuns_app, reportedRuns_app. do 2 f_equal.
  - f_equal. unfold keptRuns. rewrite filter_cons.
    destruct (decide (3 ≤ length run)).
    + by rewrite decide_False by lia.
    + by rewrite decide_True by lia.
  - f_equal. unfold reportedRuns. rewrite filter_cons.
    by destruct (decide (3 ≤ length run)).
Qed.

(** After a removal the outer loop goes on at the index it stands on. *)
Lemma matchLoop_removal (kept run after : list Ball.t) (fuel : nat)
    (calls : list nat) :
  maximalRun diameter epsilon [] run after → (3 <= length run)%nat →
  matchLoop diameter epsilon (S fuel) (kept ++ run ++ after) (length kept) calls
  = matchLoop diameter epsilon fuel (kept ++ after) (length kept)
      (calls ++ [length run]).
Proof.
  intros Hmax Hlong.
  pose proof (runs_around [] run after Hmax) as Hruns. simpl in Hruns.
  destruct Hmax as (Hne & _). destruct run as [|b rest]; [done|].
  change ((b :: rest) ++ after) with (b :: (rest ++ after)) in Hruns.
  rewrite runs_cons in Hruns. cbn zeta in Hruns.
  set (n := linkedPrefix diameter epsilon (Ball.color b) b (rest ++ after)) in *.
  assert (Hn : n = length rest).
  { injection Hruns as Hrest _. apply (f_equal length) in Hrest.
    rewrite length_take in Hrest.
    pose proof (linkedPrefix_le (Ball.color b) b (rest ++ after)).
    fold n in H. lia. }
  cbn [matchLoop]. rewrite decide_False by (rewrite !length_app; simpl; lia).
  change (kept ++ (b :: rest) ++ after) with (kept ++ b :: (rest ++ after)).
  rewrite list_lookup_middle by done. cbn [mbind option_bind].
  rewrite runLoop_linkedPrefix
    by (rewrite !length_app; simpl; rewrite ?length_app; lia).
  fold n. cbn [mbind option_bind]. rewrite Hn.
  rewrite decide_True by (simpl in Hlong; lia).
  change (kept ++ b :: rest ++ after) with (kept ++ (b :: rest) ++ after).
  change (1 + length rest)%nat with (length (b :: rest)).
  by rewrite splice_middle.
Qed.

End scan.

Lemma runs_far_apart (diameter epsilon : R) (bs : list Ball.t) :
  (∀ i a b, bs !! i = Some a → bs !! S i = Some b →
     Ball.distance b - Ball.distance a > diameter + epsilon) →
  runs diameter epsilon bs = (λ b, [b]) <$> bs.
Proof.
  induction bs as [|b bs IH]; intros Hfar; [done|].
  simpl. rewrite IH by (intros i x y; apply (Hfar (S i))).
  destruct bs as [|b' bs]; [done|]. simpl.
  unfold linked. rewrite bool_decide_eq_false_2, andb_false_r; [done|].
  specialize (Hfar 0%nat b b' eq_refl eq_refl). lra.
Qed.

Lemma keptRuns_singletons (bs : list Ball.t) :
  keptRuns ((λ b, [b]) <$> bs) = bs ∧ reportedRuns ((λ b, [b]) <$> bs) = [].
Proof.
  unfold keptRuns, reportedRuns. induction bs as [|b bs [IH1 IH2]]; [done|].
  rewrite fmap_cons, !filter_cons. simpl. by rewrite IH1, IH2.
Qed.

Lemma keptRuns_sublist (gs : list (list Ball.t)) :
  keptRuns gs `sublist_of` concat gs.
Proof.
  unfold keptRuns. induction gs as [|g gs IH]; [done|].
  rewrite filter_cons. simpl. destruct (decide _); simpl.
  - by apply sublist_app.
  - by apply sublist_inserts_l.
Qed.

(** Removing runs keeps what is left spaced. *)
Lemma keptRuns_spaced (diameter epsilon : R) (bs : list Ball.t) :
  0 <= diameter → spaced diameter bs →
  spaced diameter (keptRuns (runs diameter epsilon bs)).
Proof.
  intros Hd Hsp. apply StronglySorted_spaced.
  apply (StronglySorted_sublist _ _ bs); [|by apply spaced_StronglySorted].
  rewrite <- (concat_runs diameter epsilon bs) at 2. apply keptRuns_sublist.
Qed.

(** C2: in the scan of [update], a maximal run of same-colour balls in
    contact stays in the chain when it has fewer than 3 balls, so a run of
    exactly 2 is never removed; a run of 3 or more is removed as a whole
    with one [onMatch] call that reports its length, so a run of exactly 3
    is always removed and a run of exactly 5 gives the single call
    [onMatch (5)].  The balls before and after the run are scanned as they
    would be alone, and after a removal the scan goes on from the index it
    stands on. *)
Theorem scan_threshold (diameter epsilon : R) (before run after : list Ball.t)
    (keptB keptA : list Ball.t) (callsB callsA : list nat) :
  maximalRun diameter epsilon before run after →
  matchScan diameter epsilon before = Some (keptB, callsB) →
  matchScan diameter epsilon after = Some (keptA, callsA) →
  let scan := matchScan diameter epsilon (before ++ run ++ after) in
  ((length run < 3)%nat → scan = Some (keptB ++ run ++ keptA, callsB ++ callsA)) ∧
  ((3 <= length run)%nat →
   scan = Some (keptB ++ keptA, callsB ++ [length run] ++ callsA)) ∧
  (length run = 2%nat → scan = Some (keptB ++ run ++ keptA, callsB ++ callsA)) ∧
  (length run = 3%nat → scan = Some (keptB ++ keptA, callsB ++ [3%nat] ++ callsA)) ∧
  (length run = 5%nat → scan = Some (keptB ++ keptA, callsB ++ [5%nat] ++ callsA)) ∧
  ((3 <= length run)%nat → ∀ fuel calls,
     matchLoop diameter epsilon (S fuel) (keptB ++ run ++ after) (length keptB) calls
     = matchLoop diameter epsilon fuel (keptB ++ after) (length keptB)
         (calls ++ [length run])).
Proof.
  intros Hmax HB HA scan.
  rewrite matchScan_runs in HB, HA. injection HB as <- <-. injection HA as <- <-.
  assert (Hshort : (length run < 3)%nat →
            scan = Some (keptRuns (runs diameter epsilon before) ++ run
                           ++ keptRuns (runs diameter epsilon after),
                         reportedRuns (runs diameter epsilon before)
                           ++ reportedRuns (runs diameter epsilon after))).
  { intros Hlen. unfold scan. rewrite matchScan_around by done.
    by rewrite !decide_False by lia. }
  assert (Hlong : (3 <= length run)%nat →
            scan = Some (keptRuns (runs diameter epsilon before)
                           ++ keptRuns (runs diameter epsilon after),
                         reportedRuns (runs diameter epsilon before)
                           ++ [length run]
                           ++ reportedRuns (runs diameter epsilon after))).
  { intros Hlen. unfold scan. rewrite matchScan_around by done.
    by rewrite !decide_True by lia. }
  split; [done|]. split; [done|].
  split; [intros Hlen; apply Hshort; lia|].
  split; [intros Hlen; rewrite Hlong by lia; by rewrite Hlen|].
  split; [intros Hlen; rewrite Hlong by lia; by rewrite Hlen|].
  intros Hlen fuel calls. apply matchLoop_removal; [|done].
  destruct Hmax as (Hne & Hrun & _ & Hright). by repeat split.
Qed.

Lemma scan_threshold_witness :
  let run := [Ball.mk 0 red 0 18; Ball.mk 1 red 36 18; Ball.mk 2 red 72 18] in
  (maximalRun 36 2 [] run [] ∧
   matchScan 36 2 [] = Some ([], []) ∧
   length run = 3%nat) ∧
  matchScan 36 2 ([] ++ run ++ []) = Some ([] ++ [], [] ++ [3%nat] ++ []).
Proof.
  intros run.
  assert (Hmax : maximalRun 36 2 [] run []).
  { split; [done|]. split; [|by split].
    intros [|[|[|i]]] a b Ha Hb; simpl in Ha, Hb; try discriminate;
      injection Ha as <-; injection Hb as <-; unfold linked; simpl;
      apply bool_decide_eq_true_2; lra. }
  assert (Hnil : matchScan 36 2 [] = Some ([], [])) by reflexivity.
  split; [done|].
  exact (proj1 (proj2 (proj2 (proj2 (scan_threshold 36 2 [] run [] [] [] [] []
           Hmax Hnil Hnil)))) eq_refl).
Defined.

(** ** update as a whole *)

(** The chain that the constructor makes at level 1. *)
Example newBallChain_level1 (draw : nat → nat) (p : Path) :
  let c := newBallChain draw p 1 in
  (∃ color, balls c = [Ball.mk 0 color 0 18]) ∧
  maxBalls c = 30%nat ∧ spawnedCount c = 1%nat ∧ nextId c = 1%nat ∧
  spawnTimer c = 0.
Proof. simpl. repeat split. by eexists. Qed.

(** The tick, step by step: every step returns, and the chain that comes
    out is the spawned chain with the balls that the scan keeps. *)
Lemma update_steps (dt : R) (draw : nat → nat) (c : BallChain) :
  let c1 := spawnStep dt draw c in
  let diameter := ballRadius c1 * 2 in
  (balls c1 = [] ∧ update dt draw c = Some (c1, []))
  ∨ (balls c1 ≠ [] ∧
     ∃ segments moved resolved,
       buildSegments (sortByDistance (balls c1)) diameter 2 = Some segments ∧
       moveSegments (speed c1) (speed c1 * 4) diameter dt segments
         (sortByDistance (balls c1)) = Some moved ∧
       resolveOverlaps diameter moved = Some resolved ∧
       spaced diameter resolved ∧
       update dt draw c
       = Some (withBalls c1 (keptRuns (runs diameter 2 resolved)),
               reportedRuns (runs diameter 2 resolved))).
Proof.
  intros c1 diameter. unfold update. fold c1.
  destruct (decide (length (balls c1) = 0%nat)) as [Hlen|Hlen].
  { left. split; [|done]. by destruct (balls c1). }
  right. split; [by destruct (balls c1)|]. fold diameter.
  destruct (buildSegments_total (sortByDistance (balls c1)) diameter 2)
    as (segments & Hsegs & Hseg).
  { intros Hnil. apply (f_equal length) in Hnil.
    rewrite length_sortByDistance in Hnil. done. }
  destruct (moveSegments_total (speed c1) (speed c1 * 4) diameter dt segments
              (sortByDistance (balls c1)) Hseg) as (moved & Hmoved & _).
  destruct (resolveOverlaps_spaced diameter moved) as (resolved & Hres & _ & Hsp).
  exists segments, moved, resolved. rewrite Hsegs. simpl. rewrite Hmoved. simpl.
  rewrite Hres. simpl. rewrite matchScan_runs. done.
Qed.

Lemma ballRadius_spawnStep (dt : R) (draw : nat → nat) (c : BallChain) :
  ballRadius (spawnStep dt draw c) = ballRadius c.
Proof.
  unfold spawnStep. destruct (decide _); [|done]. destruct (decide _); [|done].
  simpl. unfold spawnBall. by destruct (fold_left _ _ _).
Qed.

Lemma spawnBall_fields (draw : nat → nat) (c : BallChain) :
  ∃ color distance,
    spawnBall draw c = pushSpawned c color distance.
Proof. unfold spawnBall. destruct (fold_left _ _ _). by eexists _, _. Qed.

(** Everything after the spawn step leaves the counters and the timer
    alone. *)
Lemma update_after_spawn (dt : R) (draw : nat → nat) (c : BallChain) :
  ∃ c' calls,
    update dt draw c = Some (c', calls) ∧
    spawnedCount c' = spawnedCount (spawnStep dt draw c) ∧
    spawnTimer c' = spawnTimer (spawnStep dt draw c) ∧
    spawnInterval c' = spawnInterval (spawnStep dt draw c) ∧
    nextId c' = nextId (spawnStep dt draw c).
Proof.
  destruct (update_steps dt draw c) as [[_ ->]|(_ & _ & _ & resolved & _ & _ & _ & _ & ->)];
    by eexists _, _.
Qed.

(** A tick changes the balls, the counters and the timer, and nothing
    else. *)
Lemma update_keeps_parameters (dt : R) (draw : nat → nat) (c c' : BallChain)
    (calls : list nat) :
  update dt draw c = Some (c', calls) →
  path c' = path c ∧ ballRadius c' = ballRadius c ∧ speed c' = speed c ∧
  colors c' = colors c ∧ spawnInterval c' = spawnInterval c ∧
  maxBalls c' = maxBalls c.
Proof.
  intros Hup.
  assert (Hspawn : ∀ c1, c1 = spawnStep dt draw c →
            path c1 = path c ∧ ballRadius c1 = ballRadius c ∧ speed c1 = speed c ∧
            colors c1 = colors c ∧ spawnInterval c1 = spawnInterval c ∧
            maxBalls c1 = maxBalls c).
  { intros c1 ->. unfold spawnStep. destruct (decide _); [|done].
    destruct (decide _); [|done].
    destruct (spawnBall_fields draw (withSpawnTimer c (spawnTimer c + dt)))
      as (color & distance & ->). done. }
  destruct (update_steps dt draw c) as [[_ Heq]|(_ & _ & _ & resolved & _ & _ & _ & _ & Heq)];
    rewrite Heq in Hup; injection Hup as <- _; simpl; by apply (Hspawn _ eq_refl).
Qed.

(** C1: for every chain state (the ball radius is not negative; it is 18 in
    every chain the constructor makes) and every time step, [update]
    returns, and afterwards the balls are in ascending order of distance
    and every two neighbours are at least a diameter apart, hence at least
    [diameter - epsilon] with the tolerance 2 of the code: the resolution
    pass leaves each ball at its predecessor's distance plus the diameter
    or further, and the removal of runs only widens gaps. *)
Theorem update_sorted_and_spaced (dt : R) (draw : nat → nat) (c : BallChain) :
  0 <= ballRadius c →
  ∃ c' calls,
    update dt draw c = Some (c', calls) ∧
    ∀ i a b, balls c' !! i = Some a → balls c' !! S i = Some b →
      Ball.distance a <= Ball.distance b ∧
      Ball.distance b - Ball.distance a >= ballRadius c * 2 ∧
      Ball.distance b - Ball.distance a >= ballRadius c * 2 - 2.
Proof.
  intros Hr.
  destruct (update_steps dt draw c) as [[Hnil ->]|(_ & _ & _ & resolved & _ & _ & _ & Hsp & ->)].
  - eexists _, _. split; [done|]. intros i a b Ha. by rewrite Hnil in Ha.
  - eexists _, _. split; [done|]. intros i a b Ha Hb. simpl in Ha, Hb.
    rewrite ballRadius_spawnStep in *.
    pose proof (keptRuns_spaced (ballRadius c * 2) 2 resolved ltac:(lra) Hsp i a b Ha Hb).
    lra.
Qed.

Lemma update_sorted_and_spaced_witness :
  let c := chainOf [Ball.mk 0 red 0 18; Ball.mk 1 cyan 50 18] 30 in
  0 <= ballRadius c ∧
  ∃ c' calls,
    update 1 firstColor c = Some (c', calls) ∧
    ∀ i a b, balls c' !! i = Some a → balls c' !! S i = Some b →
      Ball.distance a <= Ball.distance b ∧
      Ball.distance b - Ball.distance a >= ballRadius c * 2 ∧
      Ball.distance b - Ball.distance a >= ballRadius c * 2 - 2.
Proof.
  intros c. assert (H : 0 <= ballRadius c) by (simpl; lra).
  split; [exact H|]. exact (update_sorted_and_spaced 1 firstColor c H).
Defined.

(** C8: the spawn interval is the ball diameter over the base speed, 36/55
    at level 1, and no tick changes it.  In a tick, while fewer balls than
    the cap have been spawned, [dt] is added to the timer; when the timer
    reaches the interval one ball is appended and the timer is set to 0,
    otherwise nothing is spawned; at the cap nothing is spawned and the
    timer stands still.  So a tick spawns at most one ball, however large
    [dt] is. *)
Theorem spawn_cadence :
  (∀ draw p,
     let c := newBallChain draw p 1 in
     ballRadius c = 18 ∧ speed c = 55 ∧ spawnInterval c = 36 / 55) ∧
  (∀ draw p level,
     let c := newBallChain draw p level in
     spawnInterval c = ballRadius c * 2 / speed c) ∧
  (∀ dt draw c,
     ∃ c' calls,
       update dt draw c = Some (c', calls) ∧
       spawnInterval c' = spawnInterval c ∧
       (spawnedCount c' <= S (spawnedCount c))%nat ∧
       ((spawnedCount c < maxBalls c)%nat →
        spawnTimer c + dt >= spawnInterval c →
        spawnedCount c' = S (spawnedCount c) ∧ spawnTimer c' = 0 ∧
        nextId c' = S (nextId c) ∧
        ∃ color distance,
          balls (spawnStep dt draw c)
          = balls c ++ [Ball.mk (nextId c) color distance (ballRadius c)]) ∧
       ((spawnedCount c < maxBalls c)%nat →
        ¬ spawnTimer c + dt >= spawnInterval c →
        spawnedCount c' = spawnedCount c ∧ spawnTimer c' = spawnTimer c + dt ∧
        nextId c' = nextId c ∧ balls (spawnStep dt draw c) = balls c) ∧
       (¬ (spawnedCount c < maxBalls c)%nat →
        spawnedCount c' = spawnedCount c ∧ spawnTimer c' = spawnTimer c ∧
        nextId c' = nextId c ∧ balls (spawnStep dt draw c) = balls c)).
Proof.
  split; [|split].
  - intros draw p c. simpl. repeat split; lra.
  - intros draw p level c. done.
  - intros dt draw c.
    destruct (update_after_spawn dt draw c) as (c' & calls & Hup & H1 & H2 & H3 & H4).
    exists c', calls. split; [done|]. rewrite H1, H2, H3, H4. clear. unfold spawnStep.
    destruct (decide (spawnedCount c < maxBalls c)%nat) as [Hcap|Hcap].
    + simpl. destruct (decide (spawnTimer c + dt >= spawnInterval c)) as [Hdue|Hdue].
      * destruct (spawnBall_fields draw (withSpawnTimer c (spawnTimer c + dt)))
          as (color & distance & ->). simpl.
        split; [done|]. split; [done|]. split; [|split]; [|done..].
        intros _ _. repeat split. by exists color, distance.
      * split; [done|]. split; [by constructor|]. split; [|split]; done.
    + split; [done|]. split; [by constructor|]. split; [|split]; done.
Qed.

Lemma spawn_cadence_witness :
  let c := chainOf [Ball.mk 0 red 0 18] 1 in
  ((spawnedCount c < maxBalls c)%nat ∧ spawnTimer c + 100 >= spawnInterval c) ∧
  ∃ c' calls,
    update 100 firstColor c = Some (c', calls) ∧
    spawnedCount c' = S (spawnedCount c) ∧ spawnTimer c' = 0.
Proof.
  intros c.
  assert (Hcap : (spawnedCount c < maxBalls c)%nat) by (simpl; lia).
  assert (Hdue : spawnTimer c + 100 >= spawnInterval c) by (simpl; lra).
  split; [done|].
  destruct (proj2 (proj2 spawn_cadence) 100 firstColor c)
    as (c' & calls & Hup & _ & _ & Hspawn & _).
  destruct (Hspawn Hcap Hdue) as (Hcount & Htimer & _).
  by exists c', calls.
Defined.

(** Three red balls in contact and a tick with [dt = 0]: the scan removes
    all three with the one call [onMatch (3)]. *)
Example update_straight_match :
  let c := chainOf [Ball.mk 0 red 0 18; Ball.mk 1 red 36 18; Ball.mk 2 red 72 18] 30 in
  update 0 firstColor c = Some (withBalls c [], [3%nat]).
Proof.
  intros c. subst c. unfold update, spawnStep. simpl. decide_reals.
  unfold buildSegments. simpl. decide_reals.
  unfold moveSegments, moveStep, moveSpeedOf, advance, at_. simpl.
  unfold resolveOverlaps, resolveStep. simpl. decide_reals.
  unfold matchScan. simpl. decide_reals. reflexivity.
Qed.

(** C3, the code at the input on which it departs from the claim: two
    balls of different colours at distances 0 and 50 (diameter 36, so two
    segments), base speed 55, one tick with [dt = 1] and nothing to spawn.
    Segment 0 advances at the base speed, from 0 to 55.  Segment 1 reads
    the gap against the ball of segment 0 that has already been moved:
    50 - 55 - 36 = -41, so its velocity -220 * (0.5 - 0.82) is +70.4 and it
    moves forward, from 50 to 120.4, where the claim has every segment
    after the first move in the negative direction. *)
Theorem update_pulls_forward :
  let c := chainOf [Ball.mk 0 red 0 18; Ball.mk 1 cyan 50 18] 30 in
  ∃ d0 d1,
    update 1 firstColor c
    = Some (withBalls c [Ball.mk 0 red d0 18; Ball.mk 1 cyan d1 18], []) ∧
    d0 = 55 ∧ d1 = 120.4 ∧ 50 < d1.
Proof.
  intros c. subst c. eexists _, _. split.
  - unfold update, spawnStep. simpl. decide_reals.
    unfold buildSegments. simpl. decide_reals.
    unfold moveSegments, moveStep, moveSpeedOf, advance, at_. simpl.
    unfold resolveOverlaps, resolveStep. simpl. decide_reals.
    reflexivity.
  - repeat split; lra.
Qed.

(** ** insertBall *)

(** The pushing loop of [insertBall], on the array [bs0] that already holds
    the new ball at [h]. *)
Lemma pushLoop_spec (r : R) (h : nat) (bs0 : list Ball.t) :
  ∃ bs',
    forM (seq h (length bs0 - 1 - h)) (pushStep r) bs0 = Some bs' ∧
    length bs' = length bs0 ∧
    (∀ j, (j <= h)%nat → bs' !! j = bs0 !! j) ∧
    (∀ j a b b0, (h <= j)%nat → bs' !! j = Some a → bs' !! S j = Some b →
       bs0 !! S j = Some b0 →
       b = Ball.setDistance b0
             (if decide (Ball.distance b0 - Ball.distance a < r * 2)
              then Ball.distance a + r * 2 else Ball.distance b0)).
Proof.
  destruct (forM_seq_inv
    (λ k cur, length cur = length bs0 ∧
       (∀ j, (j <= h)%nat → cur !! j = bs0 !! j) ∧
       (∀ j, (k < j)%nat → cur !! j = bs0 !! j) ∧
       (∀ j a b b0, (h <= j < k)%nat → cur !! j = Some a → cur !! S j = Some b →
          bs0 !! S j = Some b0 →
          b = Ball.setDistance b0
                (if decide (Ball.distance b0 - Ball.distance a < r * 2)
                 then Ball.distance a + r * 2 else Ball.distance b0)))
    h (length bs0 - 1 - h) (pushStep r) bs0) as (bs' & Hrun & Hlen & Hlow & Hhigh & Hmid).
  - repeat split; try done. intros; lia.
  - intros i cur Hi (Hlen & Hlow & Hhigh & Hmid). unfold pushStep.
    destruct (lookup_lt_is_Some_2 cur i) as [b1 Hb1]; [lia|].
    destruct (lookup_lt_is_Some_2 cur (i + 1)) as [b2 Hb2]; [lia|].
    rewrite Hb1, Hb2. simpl.
    assert (Hb2' : bs0 !! S i = Some b2).
    { rewrite <- Hhigh by lia. by replace (S i) with (i + 1)%nat by lia. }
    destruct (decide _) as [Hov|Hov]; eexists; (split; [done|]).
    + split; [by rewrite length_insert|]. split; [|split].
      * intros j Hj. rewrite list_lookup_insert_ne by lia. by apply Hlow.
      * intros j Hj. rewrite list_lookup_insert_ne by lia. apply Hhigh. lia.
      * intros j a b b0 Hj Ha Hb Hb0. destruct (decide (j = i)) as [->|Hne].
        -- rewrite list_lookup_insert_ne in Ha by lia.
           replace (S i) with (i + 1)%nat in Hb by lia.
           rewrite list_lookup_insert_eq in Hb by lia.
           rewrite Hb1 in Ha. injection Ha as <-. injection Hb as <-.
           rewrite Hb2' in Hb0. injection Hb0 as <-.
           by rewrite decide_True by done.
        -- rewrite list_lookup_insert_ne in Ha by lia.
           rewrite list_lookup_insert_ne in Hb by lia.
           apply (Hmid j); [lia|done..].
    + split; [done|]. split; [done|]. split.
      * intros j Hj. apply Hhigh. lia.
      * intros j a b b0 Hj Ha Hb Hb0. destruct (decide (j = i)) as [->|Hne].
        -- rewrite Hb1 in Ha. injection Ha as <-.
           replace (S i) with (i + 1)%nat in Hb by lia.
           rewrite Hb2 in Hb. injection Hb as <-.
           rewrite Hb2' in Hb0. injection Hb0 as <-.
           rewrite decide_False by done. by rewrite setDistance_same.
        -- apply (Hmid j); [lia|done..].
  - exists bs'. split; [done|]. split; [done|]. split; [done|].
    intros j a b b0 Hj Ha Hb Hb0. apply (Hmid j); [|done..].
    apply lookup_lt_Some in Hb. lia.
Qed.

(** C4: for a chain and the index of one of its balls, [insertBall] makes a
    ball with the colour of the projectile and the very distance of the hit
    ball, puts it at [hitIndex] (the balls before stay, the balls from
    [hitIndex] on move up one slot), pushes each later ball forward to its
    predecessor's distance plus the diameter when it is nearer than that,
    and returns [hitIndex].  From [hitIndex] on no two neighbours are then
    nearer than a diameter. *)
Theorem insertBall_spec (projectile : Projectile.t) (hitIndex : nat)
    (c : BallChain) (hitBall : Ball.t) :
  balls c !! hitIndex = Some hitBall →
  ∃ c',
    insertBall projectile hitIndex c = Some (c', hitIndex) ∧
    nextId c' = S (nextId c) ∧
    length (balls c') = S (length (balls c)) ∧
    take hitIndex (balls c') = take hitIndex (balls c) ∧
    balls c' !! hitIndex
    = Some (Ball.mk (nextId c) (Projectile.color projectile)
              (Ball.distance hitBall) (ballRadius c)) ∧
    (∀ k a b0, (hitIndex <= k)%nat →
       balls c' !! k = Some a → balls c !! k = Some b0 →
       balls c' !! S k
       = Some (Ball.setDistance b0
                 (if decide (Ball.distance b0 - Ball.distance a < ballRadius c * 2)
                  then Ball.distance a + ballRadius c * 2
                  else Ball.distance b0))) ∧
    (∀ k a b, (hitIndex <= k)%nat →
       balls c' !! k = Some a → balls c' !! S k = Some b →
       Ball.distance b >= Ball.distance a + ballRadius c * 2).
Proof.
  intros Hhit. unfold insertBall. rewrite Hhit. simpl.
  set (newBall := Ball.mk _ _ _ _).
  set (bs0 := splice hitIndex 0 [newBall] (balls c)).
  assert (Hh : (hitIndex < length (balls c))%nat) by (by apply lookup_lt_Some in Hhit).
  assert (Hlen0 : length bs0 = S (length (balls c))).
  { unfold bs0, splice. rewrite !length_app, length_take, length_drop. simpl. lia. }
  assert (Hshift : ∀ k, (hitIndex <= k)%nat → bs0 !! S k = balls c !! k).
  { intros k Hk. unfold bs0. rewrite splice_insert_lookup by lia.
    rewrite decide_False by lia. rewrite decide_False by lia. f_equal. lia. }
  destruct (pushLoop_spec (ballRadius c) hitIndex bs0)
    as (bs' & -> & Hlen & Hlow & Hmid). simpl.
  eexists. split; [done|]. simpl. split; [done|]. split; [lia|].
  assert (Hnext : ∀ k a b0, (hitIndex <= k)%nat →
       bs' !! k = Some a → balls c !! k = Some b0 →
       bs' !! S k
       = Some (Ball.setDistance b0
                 (if decide (Ball.distance b0 - Ball.distance a < ballRadius c * 2)
                  then Ball.distance a + ballRadius c * 2
                  else Ball.distance b0))).
  { intros k a b0 Hk Ha Hb0.
    destruct (lookup_lt_is_Some_2 bs' (S k)) as [b Hb].
    { apply lookup_lt_Some in Hb0. lia. }
    rewrite Hb. f_equal. apply (Hmid k); [done..|]. by rewrite Hshift. }
  split; [|split; [|split]].
  - apply list_eq. intros j. destruct (decide (j < hitIndex)%nat) as [Hj|Hj].
    + rewrite !lookup_take_lt by done. rewrite Hlow by lia.
      unfold bs0. rewrite splice_insert_lookup by lia. by rewrite decide_True.
    + by rewrite !lookup_take_ge by lia.
  - rewrite Hlow by done. unfold bs0. rewrite splice_insert_lookup by lia.
    rewrite decide_False by lia. by rewrite decide_True.
  - exact Hnext.
  - intros k a b Hk Ha Hb.
    destruct (lookup_lt_is_Some_2 (balls c) k) as [b0 Hb0].
    { apply lookup_lt_Some in Hb. lia. }
    rewrite (Hnext k a b0 Hk Ha Hb0) in Hb. injection Hb as <-. simpl.
    destruct (decide _); lra.
Qed.

Lemma insertBall_spec_witness :
  let c := chainOf [Ball.mk 0 red 0 18; Ball.mk 1 cyan 36 18] 30 in
  let projectile := Projectile.mk 40 10 0 0 red 18 in
  balls c !! 1%nat = Some (Ball.mk 1 cyan 36 18) ∧
  ∃ c',
    insertBall projectile 1 c = Some (c', 1%nat) ∧
    balls c' !! 1%nat = Some (Ball.mk (nextId c) red 36 (ballRadius c)) ∧
    (∀ k a b, (1 <= k)%nat →
       balls c' !! k = Some a → balls c' !! S k = Some b →
       Ball.distance b >= Ball.distance a + ballRadius c * 2).
Proof.
  intros c projectile.
  assert (Hhit : balls c !! 1%nat = Some (Ball.mk 1 cyan 36 18)) by reflexivity.
  split; [exact Hhit|].
  destruct (insertBall_spec projectile 1 c _ Hhit)
    as (c' & Hins & _ & _ & _ & Hnew & _ & Hspaced).
  exists c'. split; [exact Hins|]. split; [exact Hnew|exact Hspaced].
Defined.

(** ** checkMatches *)

Lemma backward_spec (color : string) (before mid rest : list Ball.t)
    (matchCount start : nat) :
  Forall (λ b, Ball.color b = color) mid → otherColor color (last before) →
  backward (before ++ mid ++ rest) color (length before + length mid) matchCount start
  = Some ((matchCount + length mid)%nat,
          if decide (mid = []) then start else length before).
Proof.
  intros Hmid Hbefore. revert rest matchCount start.
  induction mid as [|b mid IH] using rev_ind; intros rest matchCount start.
  - simpl. rewrite Nat.add_0_r.
    destruct before as [|x before _] using rev_ind; simpl.
    + do 2 f_equal. lia.
    + rewrite length_app. simpl. replace (length before + 1)%nat with (S (length before)) by lia.
      simpl. rewrite <- app_assoc. simpl. rewrite list_lookup_middle by done. simpl.
      rewrite last_snoc in Hbefore. simpl in Hbefore.
      apply String.eqb_neq in Hbefore. rewrite Hbefore. do 2 f_equal. lia.
  - apply Forall_app in Hmid as [Hmid Hb]. apply Forall_inv in Hb.
    rewrite length_app. simpl.
    replace (length before + (length mid + 1))%nat with (S (length before + length mid)) by lia.
    simpl.
    assert (Hlook : (before ++ (mid ++ [b]) ++ rest) !! (length before + length mid)%nat = Some b).
    { rewrite <- !app_assoc. rewrite app_assoc. simpl. apply list_lookup_middle.
      by rewrite length_app. }
    rewrite Hlook. simpl. apply String.eqb_eq in Hb. rewrite Hb.
    rewrite <- (app_assoc mid). rewrite (IH Hmid). f_equal.
    rewrite (decide_False (P := mid ++ [b] = [])) by (by destruct mid).
    f_equal; [lia|]. destruct (decide (mid = [])) as [->|]; [simpl; lia|done].
Qed.

Lemma forward_spec (color : string) (before mid after : list Ball.t)
    (fuel matchCount : nat) :
  Forall (λ b, Ball.color b = color) mid → otherColor color (head after) →
  (length mid + length after <= fuel)%nat →
  forward (before ++ mid ++ after) color fuel (length before) matchCount
  = Some (matchCount + length mid)%nat.
Proof.
  intros Hmid Hafter. revert before fuel matchCount.
  induction Hmid as [|b mid Hb _ IH]; intros before fuel matchCount Hfuel.
  - simpl app. destruct after as [|x after].
    + destruct fuel; simpl; rewrite decide_True by (rewrite length_app; simpl; lia);
        f_equal; lia.
    + simpl in Hafter. apply String.eqb_neq in Hafter.
      destruct fuel; simpl.
      * simpl in Hfuel. lia.
      * rewrite decide_False by (rewrite length_app; simpl; lia).
        rewrite list_lookup_middle by done. simpl. rewrite Hafter. f_equal. lia.
  - destruct fuel as [|fuel]; [simpl in Hfuel; lia|]. simpl.
    rewrite decide_False by (rewrite length_app; simpl; lia).
    rewrite list_lookup_middle by done. simpl.
    apply String.eqb_eq in Hb. rewrite Hb.
    replace (before ++ b :: mid ++ after) with ((before ++ [b]) ++ mid ++ after)
      by (by rewrite <- app_assoc).
    replace (S (length before)) with (length (before ++ [b]))
      by (rewrite length_app; simpl; lia).
    rewrite IH by (simpl in Hfuel; lia). f_equal. lia.
Qed.

Lemma checkMatches_outside (k : Z) (c : BallChain) :
  (k < 0 ∨ k >= Z.of_nat (length (balls c)))%Z → checkMatches k c = Some (c, 0%nat).
Proof. intros Hk. unfold checkMatches. by rewrite decide_True. Qed.

(** The pivot form of the match: it finds the whole colour run around the
    pivot, whatever the distances are. *)
Lemma checkMatches_run (c : BallChain) (before left : list Ball.t) (pivot : Ball.t)
    (right after : list Ball.t) :
  balls c = before ++ (left ++ pivot :: right) ++ after →
  colorRun (Ball.color pivot) before (left ++ pivot :: right) after →
  checkMatches (Z.of_nat (length before + length left)) c
  = if decide (3 <= length (left ++ pivot :: right))%nat
    then Some (withBalls c (before ++ after), length (left ++ pivot :: right))
    else Some (c, 0%nat).
Proof.
  intros Hbs (Hrun & Hbefore & Hafter).
  apply Forall_app in Hrun as [Hleft Hright].
  apply Forall_cons in Hright as [_ Hright].
  assert (Hlen : length (balls c)
                 = (length before + (length left + S (length right)) + length after)%nat).
  { rewrite Hbs, !length_app. simpl. lia. }
  unfold checkMatches. rewrite decide_False by lia.
  rewrite Nat2Z.id.
  assert (Hpivot : balls c !! (length before + length left)%nat = Some pivot).
  { rewrite Hbs, <- !app_assoc, app_assoc. apply list_lookup_middle.
    by rewrite length_app. }
  rewrite Hpivot. simpl.
  assert (Hback : backward (balls c) (Ball.color pivot)
                    (length before + length left) 1 (length before + length left)
                  = Some (S (length left), length before)).
  { rewrite Hbs, <- app_assoc. rewrite backward_spec by done. f_equal.
    destruct (decide (left = [])) as [->|]; [|done]. simpl. f_equal. lia. }
  rewrite Hback. simpl.
  assert (Hfwd : forward (balls c) (Ball.color pivot) (length (balls c))
                   (length before + length left + 1) (S (length left))
                 = Some (S (length left) + length right)%nat).
  { rewrite Hlen, Hbs.
    replace (before ++ (left ++ pivot :: right) ++ after)
      with ((before ++ left ++ [pivot]) ++ right ++ after)
      by (by rewrite <- !app_assoc).
    replace (length before + length left + 1)%nat with (length (before ++ left ++ [pivot]))
      by (rewrite !length_app; simpl; lia).
    apply forward_spec; [done..|lia]. }
  rewrite Hfwd. simpl.
  replace (length (left ++ pivot :: right)) with (S (length left + length right))
    by (rewrite length_app; simpl; lia).
  destruct (decide (3 ≤ S (length left + length right))) as [Hlong|Hshort]; [|done].
  do 3 f_equal. rewrite Hbs. unfold splice. rewrite take_app_length. simpl.
  replace (S (length left + length right)) with (length (left ++ pivot :: right))
    by (rewrite length_app; simpl; lia).
  rewrite drop_app_add'; [|done]. by rewrite drop_app_length.
Qed.

Lemma color_prefix (color : string) (l : list Ball.t) :
  ∃ mid after, l = mid ++ after ∧ Forall (λ b, Ball.color b = color) mid ∧
               otherColor color (head after).
Proof.
  induction l as [|b l (mid & after & -> & Hmid & Hafter)].
  - by exists [], [].
  - destruct (string_dec (Ball.color b) color) as [Hb|Hb].
    + exists (b :: mid), after. repeat split; [by constructor|done].
    + exists [], (b :: mid ++ after). by repeat split.
Qed.

Lemma color_suffix (color : string) (l : list Ball.t) :
  ∃ before mid, l = before ++ mid ∧ Forall (λ b, Ball.color b = color) mid ∧
                otherColor color (last before).
Proof.
  induction l as [|b l (before & mid & -> & Hmid & Hbefore)] using rev_ind.
  - by exists [], [].
  - destruct (string_dec (Ball.color b) color) as [Hb|Hb].
    + exists before, (mid ++ [b]). rewrite app_assoc. repeat split; [|done].
      apply Forall_app. split; [done|]. by constructor.
    + exists ((before ++ mid) ++ [b]), []. rewrite app_nil_r. repeat split; [done|].
      by rewrite last_snoc.
Qed.

(** Every ball of a chain lies in a colour run. *)
Lemma colorRun_around (bs : list Ball.t) (s : nat) (pivot : Ball.t) :
  bs !! s = Some pivot →
  ∃ before left right after,
    bs = before ++ (left ++ pivot :: right) ++ after ∧
    s = (length before + length left)%nat ∧
    colorRun (Ball.color pivot) before (left ++ pivot :: right) after.
Proof.
  intros Hs. apply list_elem_of_split_length in Hs as (l1 & l2 & -> & ->).
  destruct (color_suffix (Ball.color pivot) l1) as (before & left & -> & Hleft & Hbefore).
  destruct (color_prefix (Ball.color pivot) l2) as (right & after & -> & Hright & Hafter).
  exists before, left, right, after. split; [by rewrite <- !app_assoc|].
  split; [by rewrite length_app|]. split; [|done].
  apply Forall_app. split; [done|]. by constructor.
Qed.

(** C6: [checkMatches] returns 0 and changes nothing when the pivot index
    is negative or not below the number of balls.  For a pivot inside the
    array it finds the stretch of neighbours of the pivot's colour that
    contains the pivot, from [start] on, [count] balls long; when [count]
    is at least 3 it cuts the slots [start, start + count) out of the
    array and returns [count]; otherwise it returns 0 and changes
    nothing.  Every pivot inside the array has such a stretch. *)
Theorem checkMatches_spec :
  (∀ (c : BallChain) (k : Z),
     (k < 0 ∨ k >= Z.of_nat (length (balls c)))%Z →
     checkMatches k c = Some (c, 0%nat)) ∧
  (∀ (c : BallChain) (before left : list Ball.t) (pivot : Ball.t)
     (right after : list Ball.t),
     let run := left ++ pivot :: right in
     let start := length before in
     let count := length run in
     let pivotIndex := Z.of_nat (length before + length left) in
     balls c = before ++ run ++ after →
     colorRun (Ball.color pivot) before run after →
     ((3 <= count)%nat →
      checkMatches pivotIndex c
      = Some (withBalls c (splice start count [] (balls c)), count) ∧
      splice start count [] (balls c) = before ++ after) ∧
     ((count < 3)%nat → checkMatches pivotIndex c = Some (c, 0%nat))) ∧
  (∀ (c : BallChain) (s : nat) (pivot : Ball.t),
     balls c !! s = Some pivot →
     ∃ before left right after,
       balls c = before ++ (left ++ pivot :: right) ++ after ∧
       s = (length before + length left)%nat ∧
       colorRun (Ball.color pivot) before (left ++ pivot :: right) after ∧
       checkMatches (Z.of_nat s) c
       = if decide (3 <= length (left ++ pivot :: right))%nat
         then Some (withBalls c (before ++ after), length (left ++ pivot :: right))
         else Some (c, 0%nat)).
Proof.
  split; [intros c k; apply checkMatches_outside|]. split.
  - intros c before left pivot right after run start count pivotIndex Hbs Hrun.
    pose proof (checkMatches_run c before left pivot right after Hbs Hrun) as Hcm.
    fold run count pivotIndex in Hcm.
    assert (Hsplice : splice start count [] (balls c) = before ++ after).
    { rewrite Hbs. apply splice_middle. }
    split; intros Hcount.
    + rewrite decide_True in Hcm by done. by rewrite Hsplice.
    + by rewrite decide_False in Hcm by lia.
  - intros c s pivot Hs.
    destruct (colorRun_around (balls c) s pivot Hs)
      as (before & left & right & after & Hbs & -> & Hrun).
    exists before, left, right, after. repeat split; try done; try apply Hrun.
    by apply checkMatches_run.
Qed.

Lemma checkMatches_spec_witness :
  let r0 := Ball.mk 0 red 0 18 in
  let r1 := Ball.mk 1 red 36 18 in
  let r2 := Ball.mk 2 red 72 18 in
  let b3 := Ball.mk 3 cyan 108 18 in
  let c := chainOf [r0; r1; r2; b3] 30 in
  ((5 < 0 ∨ 5 >= Z.of_nat (length (balls c)))%Z ∧
   checkMatches 5 c = Some (c, 0%nat)) ∧
  ((balls c = [] ++ ([r0] ++ r1 :: [r2]) ++ [b3] ∧
    colorRun (Ball.color r1) [] ([r0] ++ r1 :: [r2]) [b3] ∧
    (3 <= length ([r0] ++ r1 :: [r2]))%nat) ∧
   checkMatches 1 c = Some (withBalls c (splice 0 3 [] (balls c)), 3%nat) ∧
   splice 0 3 [] (balls c) = [b3]).
Proof.
  intros r0 r1 r2 b3 c.
  destruct checkMatches_spec as (Houtside & Hinside & _).
  assert (Hout : (5 < 0 ∨ 5 >= Z.of_nat (length (balls c)))%Z) by (right; simpl; lia).
  assert (Hbs : balls c = [] ++ ([r0] ++ r1 :: [r2]) ++ [b3]) by reflexivity.
  assert (Hrun : colorRun (Ball.color r1) [] ([r0] ++ r1 :: [r2]) [b3]).
  { split; [by repeat constructor|]. split; [done|]. simpl. discriminate. }
  assert (Hlong : (3 <= length ([r0] ++ r1 :: [r2]))%nat) by (simpl; lia).
  split; [split; [exact Hout|exact (Houtside c 5%Z Hout)]|].
  split; [done|].
  exact (proj1 (Hinside c [] [r0] r1 [r2] [b3] Hbs Hrun) Hlong).
Defined.

(** C10: [checkMatches] looks at colours only, in its backward and in its
    forward search.  For every chain, whatever the distances of its balls,
    a pivot that lies in a stretch of at least 3 neighbours of one colour
    has the whole stretch removed; this is so even when all neighbours of
    the chain are further apart than [diameter + epsilon], where the scan
    of [update], which asks for contact, removes nothing. *)
Theorem checkMatches_ignores_gaps (diameter epsilon : R) (c : BallChain)
    (before left : list Ball.t) (pivot : Ball.t) (right after : list Ball.t) :
  let run := left ++ pivot :: right in
  balls c = before ++ run ++ after →
  colorRun (Ball.color pivot) before run after →
  (3 <= length run)%nat →
  checkMatches (Z.of_nat (length before + length left)) c
  = Some (withBalls c (before ++ after), length run) ∧
  ((∀ i a b, balls c !! i = Some a → balls c !! S i = Some b →
      Ball.distance b - Ball.distance a > diameter + epsilon) →
   matchScan diameter epsilon (balls c) = Some (balls c, [])).
Proof.
  intros run Hbs Hrun Hlong. split.
  - rewrite (checkMatches_run c before left pivot right after Hbs Hrun).
    by rewrite decide_True.
  - intros Hfar. rewrite matchScan_runs, runs_far_apart by done.
    by destruct (keptRuns_singletons (balls c)) as [-> ->].
Qed.

Lemma checkMatches_ignores_gaps_witness :
  let r0 := Ball.mk 0 red 0 18 in
  let r1 := Ball.mk 1 red 100 18 in
  let r2 := Ball.mk 2 red 200 18 in
  let c := chainOf [r0; r1; r2] 30 in
  (balls c = [] ++ ([r0] ++ r1 :: [r2]) ++ [] ∧
   colorRun (Ball.color r1) [] ([r0] ++ r1 :: [r2]) [] ∧
   (3 <= length ([r0] ++ r1 :: [r2]))%nat ∧
   (∀ i a b, balls c !! i = Some a → balls c !! S i = Some b →
      Ball.distance b - Ball.distance a > 36 + 2)) ∧
  checkMatches 1 c = Some (withBalls c [], 3%nat) ∧
  matchScan 36 2 (balls c) = Some (balls c, []).
Proof.
  intros r0 r1 r2 c.
  assert (Hbs : balls c = [] ++ ([r0] ++ r1 :: [r2]) ++ []) by reflexivity.
  assert (Hrun : colorRun (Ball.color r1) [] ([r0] ++ r1 :: [r2]) []).
  { split; [by repeat constructor|]. by split. }
  assert (Hlong : (3 <= length ([r0] ++ r1 :: [r2]))%nat) by (simpl; lia).
  assert (Hfar : ∀ i a b, balls c !! i = Some a → balls c !! S i = Some b →
            Ball.distance b - Ball.distance a > 36 + 2).
  { intros [|[|[|i]]] a b Ha Hb; simpl in Ha, Hb; try discriminate;
      injection Ha as <-; injection Hb as <-; simpl; lra. }
  split; [done|].
  destruct (checkMatches_ignores_gaps 36 2 c [] [r0] r1 [r2] [] Hbs Hrun Hlong)
    as [Hremoved Hscan].
  split; [exact Hremoved|exact (Hscan Hfar)].
Defined.

(** A red projectile that hits the cyan ball of [red@0, cyan@36]: the new
    red ball takes index 1 at distance 36, the cyan ball is pushed to 72,
    and the pivot match at index 1 finds two red balls only. *)
Example insert_then_check :
  let c := chainOf [Ball.mk 0 red 0 18; Ball.mk 1 cyan 36 18] 30 in
  let projectile := Projectile.mk 40 10 0 0 red 18 in
  ∃ c' d,
    insertBall projectile 1 c = Some (c', 1%nat) ∧
    balls c' = [Ball.mk 0 red 0 18; Ball.mk 30 red 36 18; Ball.mk 1 cyan d 18] ∧
    d = 72 ∧
    checkMatches 1 c' = Some (c', 0%nat).
Proof.
  intros c projectile. subst c projectile. eexists _, _. split; [|split; [|split]].
  - unfold insertBall. simpl. unfold pushStep. simpl. decide_reals. reflexivity.
  - reflexivity.
  - lra.
  - reflexivity.
Qed.
